(** * Egress guard and admission limiter of the metadata extractor

    A shallow embedding of [src/security/ssrf.ts] (address classifier,
    resolution cache, URL validation) and of the sliding-window rate
    limiter, with the properties that the design document states about
    them.  Third-party packages ([ipaddr.js], [lru-cache], the WHATWG
    [URL] parser, the node resolver) are not part of the repository: the
    parts of them that the code calls appear as interfaces (type classes)
    or as small models of their documented behaviour. *)

From Stdlib Require Import ZArith Lia Ascii String.
From stdpp Require Import base gmap strings list.

Local Open Scope Z_scope.

(** ** JavaScript values that are thrown, and completions *)

(** What a [catch (error)] clause or a rejected promise carries.  The
    code only ever asks [error instanceof Error ? error.message :
    String(error)]. *)
Inductive Thrown : Type :=
  | ErrorObject (message : string)
  | OtherValue (stringified : string).

Definition describe (error : Thrown) : string :=
  match error with
  | ErrorObject message => message
  | OtherValue stringified => stringified
  end.

(** A call either returns or throws. *)
Inductive Completion (A : Type) : Type :=
  | Return (a : A)
  | Throw (e : Thrown).
Arguments Return {A} a.
Arguments Throw {A} e.

#[global] Instance Completion_ret : MRet Completion := fun A a => Return a.
#[global] Instance Completion_bind : MBind Completion := fun A B k c =>
  match c with
  | Return a => k a
  | Throw e => Throw e
  end.

Definition returns {A} (c : Completion A) : bool :=
  match c with Return _ => true | Throw _ => false end.

(** ** The [lru-cache] store

    Both module-level stores are [new LRUCache({ max, ttl })].  The model
    keeps the entries most recently used first, each with the time at
    which its time-to-live started. *)
Module LRU.
Section Store.
Context {V : Type}.

Record Entry : Type := mkEntry { key : string; value : V; start : Z }.
Record Cache : Type := mkCache { max : Z; ttl : Z; entries : list Entry }.

Definition create (max : Z) (ttl : Z) : Cache := mkCache max ttl [].

Definition with_entries (c : Cache) (es : list Entry) : Cache :=
  mkCache (max c) (ttl c) es.

Definition isStale (c : Cache) (now : Z) (e : Entry) : bool :=
  negb (ttl c =? 0) && (ttl c <? now - start e).

Definition lookup (k : string) (es : list Entry) : option Entry :=
  List.find (fun e => String.eqb (key e) k) es.

Definition without (k : string) (es : list Entry) : list Entry :=
  List.filter (fun e => negb (String.eqb (key e) k)) es.

(** [cache.get(k)]: a stale entry is dropped and reads as [undefined];
    a live one becomes the most recently used. *)
Definition get (now : Z) (k : string) (c : Cache) : option V * Cache :=
  match lookup k (entries c) with
  | None => (None, c)
  | Some e =>
      if isStale c now e
      then (None, with_entries c (without k (entries c)))
      else (Some (value e), with_entries c (e :: without k (entries c)))
  end.

(** [cache.set(k, v)]: the entry is (re)written with a fresh
    time-to-live; a new key in a full cache evicts the least recently
    used entry. *)
Definition set (now : Z) (k : string) (v : V) (c : Cache) : Cache :=
  let fresh := mkEntry k v now in
  match lookup k (entries c) with
  | Some _ => with_entries c (fresh :: without k (entries c))
  | None =>
      let kept := if max c <=? Z.of_nat (length (entries c))
                  then removelast (entries c) else entries c in
      with_entries c (fresh :: kept)
  end.

Definition clear (c : Cache) : Cache := with_entries c [].

Definition size (c : Cache) : nat := length (entries c).

(** Every entry, as a key and its value, satisfies [Q]. *)
Definition all_entries (Q : string -> V -> Prop) (c : Cache) : Prop :=
  Forall (fun e => Q (key e) (value e)) (entries c).
End Store.
Arguments Entry : clear implicits.
Arguments Cache : clear implicits.
End LRU.

(** ** The slice of [ipaddr.js] that the guard calls *)

(** A parsed address as the package holds it: four octets, or eight
    16-bit parts. *)
Inductive Address : Type :=
  | IPv4 (octets : list Z)
  | IPv6 (parts : list Z).

(** [ipaddr.parse] and the two [range()] classifications.  The package
    defines [ipaddr.isValid(s)] as "parsing [s] does not throw". *)
Class Ipaddr : Type := {
  parse : string -> Completion Address;
  rangeV4 : list Z -> string;
  rangeV6 : list Z -> string;
}.

Section AddressClassifier.
Context `{Ipaddr}.

Definition isValid (s : string) : bool := returns (parse s).

Definition kind (a : Address) : string :=
  match a with IPv4 _ => "ipv4" | IPv6 _ => "ipv6" end.

Definition range (a : Address) : string :=
  match a with IPv4 octets => rangeV4 octets | IPv6 parts => rangeV6 parts end.

(** [IPv6.prototype.isIPv4MappedAddress] *)
Definition isIPv4MappedAddress (parts : list Z) : bool :=
  String.eqb (rangeV6 parts) "ipv4Mapped".

(** [IPv6.prototype.toIPv4Address]: the last two parts, split into
    octets; it throws on an address that is not IPv4-mapped. *)
Definition toIPv4Address (parts : list Z) : Completion Address :=
  if negb (isIPv4MappedAddress parts)
  then Throw (ErrorObject "ipaddr: trying to convert a generic ipv6 address to ipv4")
  else
    let high := nth 6 parts 0 in
    let low := nth 7 parts 0 in
    Return (IPv4 [Z.shiftr high 8; Z.land high 255; Z.shiftr low 8; Z.land low 255]).

(** IP ranges that are forbidden for SSRF protection. *)
Definition DISALLOWED_IP_RANGES : gset string :=
  {[ "unspecified"; "broadcast"; "multicast"; "linkLocal"; "loopback";
     "private"; "reserved"; "carrierGradeNat";
     "uniqueLocal"; "6to4"; "teredo"; "benchmarking"; "deprecated"; "discard" ]}.

Definition disallowed (rangeName : string) : bool :=
  bool_decide (rangeName ∈ DISALLOWED_IP_RANGES).

(** Checks if an IP address is in a forbidden range. *)
Definition isAddressForbidden (address : string) : Completion bool :=
  if negb (isValid address) then Return true
  else
    parsed ← parse address;
    match parsed with
    | IPv6 parts =>
        if isIPv4MappedAddress parts
        then mapped ← toIPv4Address parts; Return (disallowed (range mapped))
        else Return (disallowed (range parsed))
    | IPv4 _ => Return (disallowed (range parsed))
    end.
End AddressClassifier.

(** ** URL parsing and DNS resolution as the guard sees them *)

(** The fields of a WHATWG [URL] that [validateUrl] reads;
    [parsedUrl.toString()] is [href]. *)
Record URL : Type := mkURL { protocol : string; hostname : string; href : string }.

(** [new URL(s)] returns a URL or throws a [TypeError]. *)
Class UrlParser : Type := { URL_new : string -> Completion URL }.

(** [UrlValidationResult]: [{ ok: true; url }] or [{ ok: false; reason }]. *)
Inductive UrlValidationResult : Type :=
  | Ok (url : URL)
  | Denied (reason : string).

(** One element of [Promise.allSettled]. *)
Inductive Settled : Type :=
  | Fulfilled (value : list string)
  | Rejected (reason : Thrown).

(** What the resolver answers for a hostname at the time of a call, and
    how long the two queries take together. *)
Record Resolver : Type := mkResolver {
  resolve4 : string -> Settled;
  resolve6 : string -> Settled;
  latency : string -> Z;
}.

(** The [for (const result of results)] loop of [resolveHostAddresses]. *)
Definition collect (results : list Settled) : list string * list string :=
  fold_left
    (fun (acc : list string * list string) result =>
       let (addresses, errors) := acc in
       match result with
       | Fulfilled value => (addresses ++ value, errors)
       | Rejected reason => (addresses, errors ++ [describe reason])
       end)
    results ([], []).

(** Resolves a hostname to all its IP addresses (both IPv4 and IPv6). *)
Definition resolveHostAddresses (dns : Resolver) (hostname : string)
  : Completion (list string) :=
  let results := [resolve4 dns hostname; resolve6 dns hostname] in
  let (addresses, errors) := collect results in
  if (0 <? length addresses)%nat then Return addresses
  else
    let errorMessage :=
      if (0 <? length errors)%nat
      then String.concat "; " errors
      else "DNS lookup did not return any A or AAAA records"%string in
    Throw (ErrorObject errorMessage).

(** ** The egress guard *)

(** Calls that leave the module, in the order in which they happen. *)
Inductive Event : Type :=
  | CacheGet (hostname : string)
  | CacheSet (hostname : string) (records : list string)
  | Resolve4 (hostname : string)
  | Resolve6 (hostname : string).

(** The module-level state: the DNS cache, and the calls made so far. *)
Record State : Type := mkState {
  dnsCache : LRU.Cache (list string);
  events : list Event;
}.

(** DNS cache with 5 minute TTL and max 1000 entries. *)
Definition initialState : State :=
  mkState (LRU.create 1000 (5 * 60 * 1000)) [].

Definition log (es : list Event) (st : State) : State :=
  mkState (dnsCache st) (events st ++ es).

Definition dquote : string := String (Ascii.ascii_of_nat 34) EmptyString.

Section EgressGuard.
Context `{Ipaddr} `{UrlParser}.

(** Lines 155-171: the cache lookup and, on a miss, the resolution
    inside [try]/[catch].  [inl reason] is the early return of the
    [catch] clause; [inr records] carries the local [records], which
    TypeScript types as possibly [undefined]. *)
Definition obtainRecords (dns : Resolver) (now : Z) (hostname : string) (st : State)
  : (string + option (list string)) * State :=
  let (cached, cache1) := LRU.get now hostname (dnsCache st) in
  let st1 := log [CacheGet hostname] (mkState cache1 (events st)) in
  match cached with
  | Some records => (inr (Some records), st1)
  | None =>
      let st2 := log [Resolve4 hostname; Resolve6 hostname] st1 in
      match resolveHostAddresses dns hostname with
      | Return records =>
          let cache2 :=
            LRU.set (now + latency dns hostname) hostname records (dnsCache st2) in
          (inr (Some records), log [CacheSet hostname records] (mkState cache2 (events st2)))
      | Throw error =>
          (inl ("Failed to resolve hostname " +:+ hostname +:+ ": " +:+ describe error), st2)
      end
  end.

(** Lines 180-190: check all resolved addresses against forbidden
    ranges, stopping at the first forbidden one. *)
Fixpoint checkRecords (parsedUrl : URL) (hostname : string) (records : list string)
  : Completion UrlValidationResult :=
  match records with
  | [] => Return (Ok parsedUrl)
  | record :: rest =>
      forbidden ← isAddressForbidden record;
      if forbidden : bool
      then Return (Denied ("Refusing to access forbidden resolved address " +:+ record
                           +:+ " for host " +:+ hostname))
      else checkRecords parsedUrl hostname rest
  end.

(** Validates a URL for SSRF protection. *)
Definition validateUrl (dns : Resolver) (now : Z) (urlCandidate : string) (st : State)
  : Completion UrlValidationResult * State :=
  match URL_new urlCandidate with
  | Throw error =>
      (Return (Denied ("Invalid URL " +:+ dquote +:+ urlCandidate +:+ dquote +:+ ": "
                       +:+ describe error)), st)
  | Return parsedUrl =>
      if negb (String.eqb (protocol parsedUrl) "http:")
         && negb (String.eqb (protocol parsedUrl) "https:")
      then (Return (Denied ("Unsupported protocol for URL: " +:+ href parsedUrl)), st)
      else
        let hostname := hostname parsedUrl in
        if String.eqb hostname EmptyString
        then (Return (Denied ("URL " +:+ href parsedUrl +:+ " must include a hostname")), st)
        else if isValid hostname
        then
          (forbidden ← isAddressForbidden hostname;
           if forbidden : bool
           then Return (Denied ("Refusing to access forbidden IP address " +:+ hostname))
           else Return (Ok parsedUrl),
           st)
        else
          match obtainRecords dns now hostname st with
          | (inl reason, st') => (Return (Denied reason), st')
          | (inr records, st') =>
              match records with
              | None | Some [] =>
                  (Return (Denied ("DNS lookup for " +:+ hostname
                                   +:+ " did not return any addresses")), st')
              | Some records => (checkRecords parsedUrl hostname records, st')
              end
          end
  end.
End EgressGuard.

(** Clears the DNS cache. *)
Definition clearDnsCache (st : State) : State :=
  mkState (LRU.clear (dnsCache st)) (events st).

(** Returns DNS cache statistics. *)
Definition getDnsCacheStats (st : State) : nat * Z :=
  (LRU.size (dnsCache st), 1000).

(** ** The admission limiter (sliding-window rate limiting middleware) *)

(** Timestamps are integers ([Date.now()]); [Math.min] of no argument
    is [Infinity], so the retry hint is an integer or [Infinity]. *)
Inductive JsNumber : Type :=
  | Num (z : Z)
  | PosInfinity.

(** [Math.min(...timestamps)] *)
Definition Math_min (timestamps : list Z) : JsNumber :=
  fold_right
    (fun t acc => match acc with
                  | PosInfinity => Num t
                  | Num m => Num (Z.min t m)
                  end)
    PosInfinity timestamps.

(** [Math.ceil((x + a) / d)] for an integer [a] and a positive integer [d]. *)
Definition ceilDiv (x : JsNumber) (a d : Z) : JsNumber :=
  match x with
  | Num z => Num (- ((- (z + a)) / d))
  | PosInfinity => PosInfinity
  end.

Definition positive (x : JsNumber) : Prop :=
  match x with
  | Num z => 0 < z
  | PosInfinity => True
  end.

(** Calls on the store and the console, in order. *)
Inductive LimiterEvent : Type :=
  | StoreGet (ip : string)
  | StoreSet (ip : string) (timestamps : list Z)
  | ConsoleWarn (message : string).

Record Limiter : Type := mkLimiter {
  rateLimitStore : LRU.Cache (list Z);
  calls : list LimiterEvent;
}.

(** What the middleware does with the request: [await next()], or the
    429 response [{ error: "Rate limit exceeded", retryAfter }]. *)
Inductive Verdict : Type :=
  | Next
  | TooManyRequests (retryAfter : JsNumber).

(** [connInfo?.remote?.address || "unknown"] *)
Definition getClientIp (remoteAddress : option string) : string :=
  match remoteAddress with
  | Some address => if String.eqb address EmptyString then "unknown" else address
  | None => "unknown"
  end.

Section AdmissionLimiter.
(** [parseInt(process.env.RATE_LIMIT_REQUESTS || "5", 10)] and
    [parseInt(process.env.RATE_LIMIT_WINDOW_MS || "60000", 10)]. *)
Variable RATE_LIMIT_REQUESTS : Z.
Variable RATE_LIMIT_WINDOW_MS : Z.

(** Store request timestamps per IP. *)
Definition initialLimiter : Limiter :=
  mkLimiter (LRU.create 10000 RATE_LIMIT_WINDOW_MS) [].

(** The list that the handler works on: the stored timestamps of the
    identity, filtered to the current window. *)
Definition inWindow (now : Z) (stored : option (list Z)) : list Z :=
  let windowStart := now - RATE_LIMIT_WINDOW_MS in
  List.filter (fun t => windowStart <? t) (default [] stored).

(** The handler returned by [rateLimiter()], for one request; the store
    reads the same clock as [Date.now()]. *)
Definition rateLimiter (remoteAddress : option string) (now : Z) (st : Limiter)
  : Verdict * Limiter :=
  let ip := getClientIp remoteAddress in
  let (stored, store1) := LRU.get now ip (rateLimitStore st) in
  let timestamps := inWindow now stored in
  if RATE_LIMIT_REQUESTS <=? Z.of_nat (length timestamps)
  then
    let oldestInWindow := Math_min timestamps in
    let retryAfter := ceilDiv oldestInWindow (RATE_LIMIT_WINDOW_MS - now) 1000 in
    (TooManyRequests retryAfter,
     mkLimiter store1
       (calls st ++ [StoreGet ip; ConsoleWarn ("[RateLimit] Limit exceeded for IP: " +:+ ip)]))
  else
    let timestamps := timestamps ++ [now] in
    (Next,
     mkLimiter (LRU.set now ip timestamps store1)
       (calls st ++ [StoreGet ip; StoreSet ip timestamps])).
End AdmissionLimiter.

(** Clears the rate limit store. *)
Definition clearRateLimitStore (st : Limiter) : Limiter :=
  mkLimiter (LRU.clear (rateLimitStore st)) (calls st).

(** Returns rate limit store statistics. *)
Definition getRateLimitStats (st : Limiter) : nat * Z :=
  (LRU.size (rateLimitStore st), 10000).

(** ** Reference instances of the third-party interfaces

    Executable stand-ins on which the guard can be run: dotted-decimal
    IPv4 and colon-hexadecimal IPv6 literals classified by the special
    ranges that the package documents, and a lenient splitter of absolute
    URLs (scheme, authority, rest) that, unlike the WHATWG parser,
    accepts an empty authority.  The general theorems do not depend on
    them. *)
Module Reference.
Definition digitOf (c : ascii) : option Z :=
  let n := Z.of_nat (Ascii.nat_of_ascii c) in
  if (48 <=? n) && (n <=? 57) then Some (n - 48)
  else if (97 <=? n) && (n <=? 102) then Some (n - 87)
  else if (65 <=? n) && (n <=? 70) then Some (n - 55)
  else None.

Fixpoint number (base : Z) (s : string) (acc : Z) : option Z :=
  match s with
  | EmptyString => Some acc
  | String c rest =>
      match digitOf c with
      | Some d => if d <? base then number base rest (acc * base + d) else None
      | None => None
      end
  end.

Definition numeral (base : Z) (s : string) : option Z :=
  match s with
  | EmptyString => None
  | _ => number base s 0
  end.

(** [s.split(sep)] for a one-character separator. *)
Fixpoint split (sep : ascii) (s : string) : list string :=
  match s with
  | EmptyString => [EmptyString]
  | String c rest =>
      if Ascii.eqb c sep then EmptyString :: split sep rest
      else match split sep rest with
           | [] => [String c EmptyString]
           | w :: ws => String c w :: ws
           end
  end.

Definition bounded (limit : Z) (xs : list Z) : option (list Z) :=
  if forallb (fun x => x <=? limit) xs then Some xs else None.

Definition octetsOf (s : string) : option (list Z) :=
  let fields := split "." s in
  if (length fields =? 4)%nat
  then mapM (numeral 10) fields ≫= bounded 255
  else None.

Definition isGap (field : string) : bool := String.eqb field EmptyString.

(** The text before and after the first [::]. *)
Fixpoint breakDouble (s : string) : option (string * string) :=
  match s with
  | String ":" (String ":" rest) => Some (EmptyString, rest)
  | String c rest => '(before, after) ← breakDouble rest; Some (String c before, after)
  | EmptyString => None
  end.

(** Colon-separated hexadecimal groups; when [dotted], the last field
    may be a dotted quad, which stands for two groups. *)
Definition groupsOf (dotted : bool) (s : string) : option (list Z) :=
  if isGap s then Some []
  else
    let fields := split ":" s in
    let last := List.last fields EmptyString in
    if dotted && (1 <? length (split "." last))%nat
    then
      match octetsOf last with
      | Some [a; b; c; d] =>
          heads ← mapM (numeral 16) (removelast fields);
          Some (heads ++ [a * 256 + b; c * 256 + d])
      | _ => None
      end
    else mapM (numeral 16) fields.

Definition partsOf (s : string) : option (list Z) :=
  match breakDouble s with
  | Some (lhs, rhs) =>
      before ← groupsOf false lhs;
      after ← groupsOf true rhs;
      if (length before + length after <? 8)%nat
      then bounded 65535
             (before ++ repeat 0 (8 - length before - length after) ++ after)
      else None
  | None =>
      groups ← groupsOf true s;
      if (length groups =? 8)%nat then bounded 65535 groups else None
  end.

(** [matchCIDR] of the package: compare the leading [cidrBits] bits. *)
Fixpoint matchCIDR (first second : list Z) (partSize cidrBits : Z) : bool :=
  match first, second with
  | a :: first', b :: second' =>
      if cidrBits <=? 0 then true
      else
        let shift := Z.max 0 (partSize - cidrBits) in
        (Z.shiftr a shift =? Z.shiftr b shift)
        && matchCIDR first' second' partSize (cidrBits - partSize)
  | _, _ => true
  end.

Definition subnetMatch (partSize : Z) (address : list Z)
    (rangeList : list (string * list (list Z * Z))) : string :=
  match List.find
          (fun r => existsb (fun net => matchCIDR address (fst net) partSize (snd net)) (snd r))
          rangeList with
  | Some r => fst r
  | None => "unicast"
  end.

Definition SpecialRangesV4 : list (string * list (list Z * Z)) :=
  [ ("unspecified", [([0; 0; 0; 0], 8)]);
    ("broadcast", [([255; 255; 255; 255], 32)]);
    ("multicast", [([224; 0; 0; 0], 4)]);
    ("linkLocal", [([169; 254; 0; 0], 16)]);
    ("loopback", [([127; 0; 0; 0], 8)]);
    ("carrierGradeNat", [([100; 64; 0; 0], 10)]);
    ("private", [([10; 0; 0; 0], 8); ([172; 16; 0; 0], 12); ([192; 168; 0; 0], 16)]);
    ("reserved", [([192; 0; 0; 0], 24); ([192; 0; 2; 0], 24); ([192; 88; 99; 0], 24);
                  ([198; 18; 0; 0], 15); ([198; 51; 100; 0], 24); ([203; 0; 113; 0], 24);
                  ([240; 0; 0; 0], 4)]) ]%string.

Definition SpecialRangesV6 : list (string * list (list Z * Z)) :=
  [ ("unspecified", [([0; 0; 0; 0; 0; 0; 0; 0], 128)]);
    ("linkLocal", [([0xfe80; 0; 0; 0; 0; 0; 0; 0], 10)]);
    ("multicast", [([0xff00; 0; 0; 0; 0; 0; 0; 0], 8)]);
    ("loopback", [([0; 0; 0; 0; 0; 0; 0; 1], 128)]);
    ("uniqueLocal", [([0xfc00; 0; 0; 0; 0; 0; 0; 0], 7)]);
    ("ipv4Mapped", [([0; 0; 0; 0; 0; 0xffff; 0; 0], 96)]);
    ("discard", [([0x100; 0; 0; 0; 0; 0; 0; 0], 64)]);
    ("rfc6145", [([0; 0; 0; 0; 0xffff; 0; 0; 0], 96)]);
    ("rfc6052", [([0x64; 0xff9b; 0; 0; 0; 0; 0; 0], 96)]);
    ("6to4", [([0x2002; 0; 0; 0; 0; 0; 0; 0], 16)]);
    ("teredo", [([0x2001; 0; 0; 0; 0; 0; 0; 0], 32)]);
    ("benchmarking", [([0x2001; 0x2; 0; 0; 0; 0; 0; 0], 48)]);
    ("deprecated", [([0x2001; 0x10; 0; 0; 0; 0; 0; 0], 28)]);
    ("reserved", [([0x2001; 0xdb8; 0; 0; 0; 0; 0; 0], 32)]) ]%string.

Definition ipaddr : Ipaddr := {|
  parse s :=
    match partsOf s with
    | Some parts => Return (IPv6 parts)
    | None =>
        match octetsOf s with
        | Some octets => Return (IPv4 octets)
        | None => Throw (ErrorObject "ipaddr: the address has neither IPv6 nor IPv4 format")
        end
    end;
  rangeV4 octets := subnetMatch 8 octets SpecialRangesV4;
  rangeV6 parts := subnetMatch 16 parts SpecialRangesV6;
|}.

(** The text before and after the first [sep]. *)
Fixpoint breakAt (sep : ascii) (s : string) : option (string * string) :=
  match s with
  | EmptyString => None
  | String c rest =>
      if Ascii.eqb c sep then Some (EmptyString, rest)
      else '(before, after) ← breakAt sep rest; Some (String c before, after)
  end.

Definition urlParser : UrlParser := {|
  URL_new s :=
    match breakAt ":" s with
    | Some (String c scheme, rest) =>
        if forallb (fun a => negb (Ascii.eqb a " ")) (list_ascii_of_string (String c scheme))
        then
          let host :=
            match rest with
            | String "/" (String "/" authority) =>
                match breakAt "/" authority with
                | Some (host, _) => host
                | None => authority
                end
            | _ => EmptyString
            end in
          Return (mkURL (String c scheme +:+ ":") host s)
        else Throw (ErrorObject "Invalid URL")
    | _ => Throw (ErrorObject "Invalid URL")
    end
|}.

(** A resolver that answers from two tables and fails with [ENOTFOUND]
    for every other name. *)
Definition answer (query : string) (table : list (string * list string)) (hostname : string)
  : Settled :=
  match List.find (fun row => String.eqb (fst row) hostname) table with
  | Some row => Fulfilled (snd row)
  | None => Rejected (ErrorObject (query +:+ " ENOTFOUND " +:+ hostname))
  end.

Definition resolver (a aaaa : list (string * list string)) : Resolver :=
  mkResolver (answer "queryA" a) (answer "queryAaaa" aaaa) (fun _ => 20).
End Reference.

(** ** Notions used to state the properties *)

(** The forbidden categories as the design document lists them, by the
    range names of the package: unspecified, broadcast, multicast,
    link-local, loopback, private, reserved, carrier-grade NAT,
    unique-local, 6to4, Teredo, benchmarking, deprecated, discard. *)
Definition forbiddenCategories : list string :=
  [ "unspecified"; "broadcast"; "multicast"; "linkLocal"; "loopback"; "private";
    "reserved"; "carrierGradeNat"; "uniqueLocal"; "6to4"; "teredo"; "benchmarking";
    "deprecated"; "discard" ]%string.

(** The IPv4-mapped IPv6 encoding [::ffff:a.b.c.d] of four octets. *)
Definition mappedParts (octets : list Z) : list Z :=
  match octets with
  | [a; b; c; d] => [0; 0; 0; 0; 0; 0xffff; Z.lor (Z.shiftl a 8) b; Z.lor (Z.shiftl c 8) d]
  | _ => []
  end.

Definition isOctet (x : Z) : Prop := 0 <= x <= 255.

(** What one settled query contributes to the two arrays of
    [resolveHostAddresses]. *)
Definition addressesOf (result : Settled) : list string :=
  match result with
  | Fulfilled value => value
  | Rejected _ => []
  end.

Definition failuresOf (result : Settled) : list string :=
  match result with
  | Fulfilled _ => []
  | Rejected reason => [describe reason]
  end.

(** The message of the error that [resolveHostAddresses] throws. *)
Definition failureText (a aaaa : Settled) : string :=
  match (failuresOf a ++ failuresOf aaaa)%list with
  | [] => "DNS lookup did not return any A or AAAA records"
  | errors => String.concat "; " errors
  end.

Definition resolutionFails (dns : Resolver) (hostname : string) : Prop :=
  returns (resolveHostAddresses dns hostname) = false.

Definition bothFail (dns : Resolver) (hostname : string) : Prop :=
  exists e4 e6, resolve4 dns hostname = Rejected e4 /\ resolve6 dns hostname = Rejected e6.

Definition bothEmpty (dns : Resolver) (hostname : string) : Prop :=
  resolve4 dns hostname = Fulfilled [] /\ resolve6 dns hostname = Fulfilled [].

(** The reading "resolution fails only if both attempts fail or both
    return empty". *)
Definition failsOnlyIfBothFailOrBothEmpty (dns : Resolver) (hostname : string) : Prop :=
  resolutionFails dns hostname -> bothFail dns hostname \/ bothEmpty dns hostname.

(** The A query fails and the AAAA query returns no record. *)
Definition mixedResolver : Resolver :=
  mkResolver (fun hostname => Rejected (ErrorObject ("queryA ENODATA " +:+ hostname)))
             (fun _ => Fulfilled [])
             (fun _ => 20).

(** The ways in which one call may change the DNS cache: not at all,
    by the lookup alone, or by the lookup followed by the store of what
    a resolution returned. *)
Inductive cacheStep (dns : Resolver) (now : Z) (before after : LRU.Cache (list string))
  : Prop :=
  | step_untouched :
      after = before -> cacheStep dns now before after
  | step_lookup hostname :
      after = snd (LRU.get now hostname before) -> cacheStep dns now before after
  | step_store hostname records :
      resolveHostAddresses dns hostname = Return records ->
      records <> [] ->
      after = LRU.set (now + latency dns hostname) hostname records
                (snd (LRU.get now hostname before)) ->
      cacheStep dns now before after.

(** A state that the module cannot reach: an entry with no address. *)
Definition emptyEntryState : State :=
  mkState (LRU.mkCache 1000 (5 * 60 * 1000) [LRU.mkEntry "example.test"%string [] 0]) [].

Section Notions.
Context `{Ipaddr} `{UrlParser}.

(** The address that is classified: an IPv4-mapped IPv6 address is
    unwrapped to its IPv4 equivalent first. *)
Definition unwrapped (a : Address) : Address :=
  match a with
  | IPv4 _ => a
  | IPv6 parts =>
      match toIPv4Address parts with
      | Return mapped => mapped
      | Throw _ => a
      end
  end.

Definition classification (a : Address) : string := range (unwrapped a).

(** The two verdicts of the classifier on an address string. *)
Definition allowedAddress (address : string) : Prop :=
  isAddressForbidden address = Return false.

Definition forbiddenAddress (address : string) : Prop :=
  isAddressForbidden address = Return true.

(** An entry of the DNS cache represents a successful resolution: its
    value is what [resolveHostAddresses] returned for its key, under
    some answer of the resolver. *)
Definition succeeded (hostname : string) (records : list string) : Prop :=
  records <> [] /\ exists dns, resolveHostAddresses dns hostname = Return records.

Definition cacheSound (st : State) : Prop :=
  LRU.all_entries succeeded (dnsCache st).

(** The states of the module: it starts with an empty cache, and the
    exported functions are the only code that touches it.  A call that
    awaits the resolver is suspended between its lookup and its store,
    and other calls run in between, so the two halves of a call also
    occur on their own. *)
Inductive reachable : State -> Prop :=
  | reach_initial : reachable initialState
  | reach_validateUrl dns now urlCandidate st :
      reachable st -> reachable (snd (validateUrl dns now urlCandidate st))
  | reach_clearDnsCache st :
      reachable st -> reachable (clearDnsCache st)
  | reach_lookup now hostname st :
      reachable st ->
      reachable (log [CacheGet hostname]
                   (mkState (snd (LRU.get now hostname (dnsCache st))) (events st)))
  | reach_store dns now hostname records st :
      reachable st ->
      resolveHostAddresses dns hostname = Return records ->
      reachable (log [CacheSet hostname records]
                   (mkState (LRU.set now hostname records (dnsCache st)) (events st))).

(** The scheme check and the hostname check both pass. *)
Definition wellFormed (parsedUrl : URL) : Prop :=
  (protocol parsedUrl = "http:" \/ protocol parsedUrl = "https:")%string
  /\ hostname parsedUrl <> EmptyString.
End Notions.

(** The store has no entry for [k]. *)
Definition absent {V} (k : string) (c : LRU.Cache V) : Prop :=
  LRU.lookup k (LRU.entries c) = None.

(** The entry of [k] is the most recently used one; it holds [v] and
    its time-to-live started at [start]. *)
Definition holds {V} (k : string) (v : V) (start : Z) (c : LRU.Cache V) : Prop :=
  exists rest,
    LRU.entries c = LRU.mkEntry k v start :: rest /\ LRU.lookup k rest = None.

(** [q] is [Math.ceil(n / d)]. *)
Definition isCeiling (n d q : Z) : Prop := d * (q - 1) < n <= d * q.

(** The reading "every call, denied ones included, writes the trimmed
    list of the identity back to the store": the call makes a
    [rateLimitStore.set] for the identity with a list that starts with
    the trimmed one. *)
Definition persistsTrimmed (maxRequests windowMs : Z)
    (remoteAddress : option string) (now : Z) (st : Limiter) : Prop :=
  let ip := getClientIp remoteAddress in
  let trimmed := inWindow windowMs now (fst (LRU.get now ip (rateLimitStore st))) in
  exists written before after,
    calls (snd (rateLimiter maxRequests windowMs remoteAddress now st))
      = calls st ++ before ++ StoreSet ip written :: after
    /\ exists added, written = trimmed ++ added.

(** Consecutive requests of one client, at the given times. *)
Fixpoint serve (maxRequests windowMs : Z) (remoteAddress : option string)
    (times : list Z) (st : Limiter) : list Verdict * Limiter :=
  match times with
  | [] => ([], st)
  | now :: later =>
      let (v, st1) := rateLimiter maxRequests windowMs remoteAddress now st in
      let (vs, st2) := serve maxRequests windowMs remoteAddress later st1 in
      (v :: vs, st2)
  end.

(** A client that has used its five requests of the minute. *)
Definition exhaustedLimiter : Limiter :=
  snd (serve 5 60000 (Some "203.0.113.9"%string) [1000; 1001; 1002; 1003; 1004]
         (initialLimiter 60000)).

(** A resolver in which [example.com] has public addresses only and
    [evil.test] has one public and one private address. *)
Definition exampleResolver : Resolver :=
  Reference.resolver
    [ ("example.com", ["93.184.216.34"]); ("evil.test", ["93.184.216.34"; "10.0.0.1"]) ]%string
    [ ("example.com", ["2606:2800:220:1:248:1893:25c8:1946"]) ]%string.

(** The state after one validation of a URL on [example.com]. *)
Definition warmState : State :=
  snd (@validateUrl Reference.ipaddr Reference.urlParser exampleResolver 0
         "https://example.com/article" initialState).

(** ** Further notions: the stores *)

(** The keys of a store are distinct and it holds no more entries than
    its [max]. *)
Definition wellKept {V} (c : LRU.Cache V) : Prop :=
  List.NoDup (map LRU.key (LRU.entries c))
  /\ Z.of_nat (length (LRU.entries c)) <= LRU.max c.

(** ** Further notions: the admission limiter *)

(** The states of the limiter module: the store starts empty, and the
    handler and [clearRateLimitStore] are the only code that touches
    it. *)
Inductive reachableLimiter (maxRequests windowMs : Z) : Limiter -> Prop :=
  | limiter_initial :
      reachableLimiter maxRequests windowMs (initialLimiter windowMs)
  | limiter_request remoteAddress now st :
      reachableLimiter maxRequests windowMs st ->
      reachableLimiter maxRequests windowMs
        (snd (rateLimiter maxRequests windowMs remoteAddress now st))
  | limiter_clear st :
      reachableLimiter maxRequests windowMs st ->
      reachableLimiter maxRequests windowMs (clearRateLimitStore st).

(** A stored list is never empty and never longer than the limit. *)
Definition withinLimit (maxRequests : Z) (ip : string) (timestamps : list Z) : Prop :=
  1 <= Z.of_nat (length timestamps) <= maxRequests.

(** Requests of several clients, each with its remote address and its
    time, handled one after the other. *)
Fixpoint handleAll (maxRequests windowMs : Z) (requests : list (option string * Z))
    (st : Limiter) : list Verdict * Limiter :=
  match requests with
  | [] => ([], st)
  | (remoteAddress, now) :: later =>
      let (v, st1) := rateLimiter maxRequests windowMs remoteAddress now st in
      let (vs, st2) := handleAll maxRequests windowMs later st1 in
      (v :: vs, st2)
  end.

Definition isNext (v : Verdict) : bool :=
  match v with Next => true | TooManyRequests _ => false end.

(** The times of the requests of identity [ip] that were admitted. *)
Fixpoint admittedTimes (ip : string) (requests : list (option string * Z))
    (verdicts : list Verdict) : list Z :=
  match requests, verdicts with
  | (remoteAddress, now) :: requests', v :: verdicts' =>
      if String.eqb (getClientIp remoteAddress) ip && isNext v
      then now :: admittedTimes ip requests' verdicts'
      else admittedTimes ip requests' verdicts'
  | _, _ => []
  end.

(** [x] lies in the window of length [windowMs] that ends at [t]. *)
Definition inWindowAt (windowMs t x : Z) : bool := (t - windowMs <? x) && (x <=? t).

(** The identities that occur in a list of requests. *)
Definition identities (requests : list (option string * Z)) : list string :=
  map (fun request => getClientIp (fst request)) requests.

(** The clock does not go back: every time is at least [from] and at
    least the time before it. *)
Fixpoint nondecreasing (from : Z) (times : list Z) : Prop :=
  match times with
  | [] => True
  | t :: later => from <= t /\ nondecreasing t later
  end.

(** The timestamps of a list that are later than [now - windowMs]. *)
Definition recent (windowMs now : Z) (timestamps : list Z) : list Z :=
  List.filter (fun t => now - windowMs <? t) timestamps.

(** The store knows every admitted request of [ip] that still counts:
    the recent ones among the admitted times [past] are the recent ones
    of the stored list, and no stored time is later than the start of
    the entry's time-to-live. *)
Definition tracks (windowMs : Z) (ip : string) (past : list Z) (now : Z)
    (c : LRU.Cache (list Z)) : Prop :=
  match LRU.lookup ip (LRU.entries c) with
  | None => recent windowMs now past = []
  | Some e =>
      recent windowMs now past = recent windowMs now (LRU.value e)
      /\ Forall (fun t => t <= LRU.start e) (LRU.value e)
      /\ LRU.start e <= now
  end.

(** A resolver that knows no name at all. *)
Definition silentResolver : Resolver := Reference.resolver [] [].

(** Two clients at work: the first makes seven requests, the second
    two, in the order of the clock. *)
Definition sampleRequests : list (option string * Z) :=
  [ (Some "203.0.113.9", 1000); (Some "203.0.113.9", 1001); (Some "198.51.100.7", 1001);
    (Some "203.0.113.9", 1002); (Some "203.0.113.9", 1003); (Some "203.0.113.9", 1004);
    (Some "203.0.113.9", 1005); (Some "198.51.100.7", 30000); (Some "203.0.113.9", 61000) ]%string.

(** ** Facts about the store *)
Module LRUFacts.
Section Store.
Context {V : Type}.
Import LRU.
Implicit Types (c : Cache V) (es : list (Entry V)) (Q : string -> V -> Prop).

Lemma lookup_In k es e : lookup k es = Some e -> In e es /\ key e = k.
Proof.
  unfold lookup. intros Hfind. apply find_some in Hfind as [Hin Heq].
  split; [exact Hin | now apply String.eqb_eq].
Qed.

Lemma Forall_without (P : Entry V -> Prop) k es :
  Forall P es -> Forall P (without k es).
Proof.
  unfold without. induction 1 as [|e es He Hes IH]; simpl; [constructor|].
  destruct (negb (String.eqb (key e) k)); [constructor|]; assumption.
Qed.

Lemma Forall_removelast (P : Entry V -> Prop) es :
  Forall P es -> Forall P (removelast es).
Proof.
  induction 1 as [|e es He Hes IH]; simpl; [constructor|].
  destruct es; [constructor|]. constructor; assumption.
Qed.

Lemma get_hit Q now k c v c' :
  all_entries Q c -> get now k c = (Some v, c') -> Q k v.
Proof.
  unfold get, all_entries. intros Hall.
  destruct (lookup k (entries c)) as [e|] eqn:Hl; [|discriminate].
  destruct (isStale c now e); [discriminate|].
  intros [= <- _]. apply lookup_In in Hl as [Hin <-].
  rewrite List.Forall_forall in Hall. exact (Hall e Hin).
Qed.

Lemma get_all_entries Q now k c :
  all_entries Q c -> all_entries Q (snd (get now k c)).
Proof.
  unfold get, all_entries. intros Hall.
  destruct (lookup k (entries c)) as [e|] eqn:Hl; [|exact Hall].
  destruct (isStale c now e); simpl.
  - apply Forall_without, Hall.
  - constructor; [|apply Forall_without, Hall].
    apply lookup_In in Hl as [Hin _].
    rewrite List.Forall_forall in Hall. exact (Hall e Hin).
Qed.

Lemma set_all_entries Q now k v c :
  Q k v -> all_entries Q c -> all_entries Q (set now k v c).
Proof.
  unfold set, all_entries. intros Hv Hall.
  destruct (lookup k (entries c)); simpl.
  - constructor; [exact Hv | apply Forall_without, Hall].
  - constructor; [exact Hv |].
    destruct (max c <=? Z.of_nat (length (entries c)));
      [apply Forall_removelast|]; exact Hall.
Qed.

Lemma clear_all_entries Q c : all_entries Q (clear c).
Proof. constructor. Qed.

Lemma create_all_entries Q m t : all_entries Q (create (V:=V) m t).
Proof. constructor. Qed.
End Store.
End LRUFacts.

(** ** The address classifier *)

(** The set of the code and the list of the design document name the
    same categories. *)
Lemma disallowed_spec (rangeName : string) :
  disallowed rangeName = bool_decide (rangeName ∈ forbiddenCategories).
Proof.
  unfold disallowed, DISALLOWED_IP_RANGES, forbiddenCategories.
  apply bool_decide_ext.
  rewrite !elem_of_union, !elem_of_singleton, !elem_of_cons, elem_of_nil.
  tauto.
Qed.

Section AddressClassifierFacts.
Context `{Ipaddr}.

Lemma isValid_parse (s : string) :
  isValid s = true <-> exists a, parse s = Return a.
Proof.
  unfold isValid, returns. destruct (parse s) as [a|e]; split.
  - eauto.
  - reflexivity.
  - discriminate.
  - intros [a Ha]. discriminate.
Qed.

(** The conversion is only reached behind [isIPv4MappedAddress], so
    it never throws there. *)
Lemma toIPv4Address_mapped (parts : list Z) :
  isIPv4MappedAddress parts = true ->
  toIPv4Address parts =
    Return (IPv4 [Z.shiftr (nth 6 parts 0) 8; Z.land (nth 6 parts 0) 255;
                  Z.shiftr (nth 7 parts 0) 8; Z.land (nth 7 parts 0) 255]).
Proof. unfold toIPv4Address. intros ->. reflexivity. Qed.

Lemma isAddressForbidden_parsed (address : string) (a : Address) :
  parse address = Return a ->
  isAddressForbidden address = Return (disallowed (classification a)).
Proof.
  intros Hparse. unfold isAddressForbidden, isValid, classification, unwrapped.
  rewrite Hparse. simpl. destruct a as [octets|parts]; [reflexivity|].
  destruct (isIPv4MappedAddress parts) eqn:Hmapped.
  - rewrite (toIPv4Address_mapped _ Hmapped). reflexivity.
  - unfold toIPv4Address. rewrite Hmapped. reflexivity.
Qed.

Lemma isAddressForbidden_unparsable (address : string) :
  isValid address = false -> isAddressForbidden address = Return true.
Proof. unfold isAddressForbidden. intros ->. reflexivity. Qed.

Lemma isAddressForbidden_returns (address : string) :
  exists forbidden, isAddressForbidden address = Return forbidden.
Proof.
  destruct (parse address) as [a|e] eqn:Hparse.
  - eexists. apply (isAddressForbidden_parsed _ _ Hparse).
  - exists true. apply isAddressForbidden_unparsable.
    unfold isValid. rewrite Hparse. reflexivity.
Qed.

Lemma high_octet (a b : Z) :
  isOctet b -> Z.shiftr (Z.lor (Z.shiftl a 8) b) 8 = a.
Proof.
  intros Hb. rewrite Z.shiftr_lor, Z.shiftr_shiftl_l by lia.
  rewrite Z.sub_diag, Z.shiftl_0_r, Z.shiftr_div_pow2 by lia.
  rewrite Z.div_small by (unfold isOctet in Hb; simpl; lia).
  apply Z.lor_0_r.
Qed.

Lemma low_octet (a b : Z) :
  isOctet b -> Z.land (Z.lor (Z.shiftl a 8) b) 255 = b.
Proof.
  intros Hb. change 255 with (Z.ones 8). rewrite !Z.land_ones by lia.
  rewrite <- Z.land_ones, Z.land_lor_distr_l, !Z.land_ones by lia.
  rewrite Z.shiftl_mul_pow2, Z.mod_mul by (simpl; lia).
  rewrite Z.lor_0_l. apply Z.mod_small. unfold isOctet in Hb. simpl. lia.
Qed.

Lemma toIPv4Address_mappedParts (a b c d : Z) :
  isOctet b -> isOctet d ->
  rangeV6 (mappedParts [a; b; c; d]) = "ipv4Mapped"%string ->
  toIPv4Address (mappedParts [a; b; c; d]) = Return (IPv4 [a; b; c; d]).
Proof.
  intros Hb Hd Hrange. rewrite toIPv4Address_mapped.
  - simpl. rewrite !high_octet, !low_octet by assumption. reflexivity.
  - unfold isIPv4MappedAddress. rewrite Hrange. reflexivity.
Qed.

(** C3. The classifier fails closed and follows the documented
    categories: a string that is not a valid IPv4 or IPv6 literal is
    forbidden, and a valid address is forbidden exactly when its
    classification (taken after unwrapping an IPv4-mapped address) is
    one of unspecified, broadcast, multicast, link-local, loopback,
    private, reserved, carrier-grade NAT, unique-local, 6to4, Teredo,
    benchmarking, deprecated, discard; otherwise the answer is [false]. *)
Theorem isAddressForbidden_classifies (address : string) :
  match parse address with
  | Throw _ =>
      isValid address = false /\ isAddressForbidden address = Return true
  | Return a =>
      isValid address = true
      /\ isAddressForbidden address
         = Return (bool_decide (classification a ∈ forbiddenCategories))
  end.
Proof.
  destruct (parse address) as [a|e] eqn:Hparse.
  - split; [unfold isValid; rewrite Hparse; reflexivity|].
    rewrite <- disallowed_spec. apply isAddressForbidden_parsed, Hparse.
  - assert (isValid address = false) as Hinvalid
      by (unfold isValid; rewrite Hparse; reflexivity).
    split; [exact Hinvalid | apply isAddressForbidden_unparsable, Hinvalid].
Qed.

(** C2. For every IPv4 address [a.b.c.d], the classifier gives the
    literal of its IPv4-mapped IPv6 encoding [::ffff:a.b.c.d] the same
    verdict as the literal of the address itself. *)
Theorem mapped_same_verdict (literal4 literal6 : string) (a b c d : Z) :
  isOctet a -> isOctet b -> isOctet c -> isOctet d ->
  parse literal4 = Return (IPv4 [a; b; c; d]) ->
  parse literal6 = Return (IPv6 (mappedParts [a; b; c; d])) ->
  rangeV6 (mappedParts [a; b; c; d]) = "ipv4Mapped"%string ->
  isAddressForbidden literal6 = isAddressForbidden literal4.
Proof.
  intros _ Hb _ Hd H4 H6 Hrange.
  rewrite (isAddressForbidden_parsed _ _ H4), (isAddressForbidden_parsed _ _ H6).
  unfold classification, unwrapped.
  rewrite (toIPv4Address_mappedParts a b c d Hb Hd Hrange). reflexivity.
Qed.
End AddressClassifierFacts.

(** ** Hostname resolution *)

Lemma resolveHostAddresses_unfold (dns : Resolver) (hostname : string) :
  resolveHostAddresses dns hostname =
    match addressesOf (resolve4 dns hostname) ++ addressesOf (resolve6 dns hostname) with
    | [] => Throw (ErrorObject (failureText (resolve4 dns hostname) (resolve6 dns hostname)))
    | addresses => Return addresses
    end.
Proof.
  unfold resolveHostAddresses, collect, failureText.
  destruct (resolve4 dns hostname) as [v4|e4], (resolve6 dns hostname) as [v6|e6]; simpl.
  - destruct (v4 ++ v6); reflexivity.
  - rewrite app_nil_r. destruct v4; reflexivity.
  - destruct v6; reflexivity.
  - reflexivity.
Qed.

Lemma resolveHostAddresses_nonempty (dns : Resolver) (hostname : string) records :
  resolveHostAddresses dns hostname = Return records ->
  records <> [] /\ records = addressesOf (resolve4 dns hostname) ++ addressesOf (resolve6 dns hostname).
Proof.
  rewrite resolveHostAddresses_unfold.
  destruct (addressesOf _ ++ addressesOf _) as [|r rs]; [discriminate|].
  intros [= <-]. split; [discriminate | reflexivity].
Qed.

Lemma resolveHostAddresses_fails (dns : Resolver) (hostname : string) :
  addressesOf (resolve4 dns hostname) ++ addressesOf (resolve6 dns hostname) = [] ->
  resolveHostAddresses dns hostname =
    Throw (ErrorObject (failureText (resolve4 dns hostname) (resolve6 dns hostname))).
Proof. rewrite resolveHostAddresses_unfold. intros ->. reflexivity. Qed.

(** ** The egress guard *)
Section EgressGuardFacts.
Context `{Ipaddr} `{UrlParser}.

Lemma checkRecords_allowed parsedUrl hostname records :
  Forall allowedAddress records ->
  checkRecords parsedUrl hostname records = Return (Ok parsedUrl).
Proof.
  induction 1 as [|record rest Hrecord Hrest IH]; simpl; [reflexivity|].
  rewrite Hrecord. simpl. exact IH.
Qed.

Lemma checkRecords_denied parsedUrl hostname before record after :
  Forall allowedAddress before -> forbiddenAddress record ->
  checkRecords parsedUrl hostname (before ++ record :: after) =
    Return (Denied ("Refusing to access forbidden resolved address " +:+ record
                    +:+ " for host " +:+ hostname)).
Proof.
  intros Hbefore Hrecord.
  induction Hbefore as [|r rest Hr Hrest IH]; simpl.
  - rewrite Hrecord. reflexivity.
  - rewrite Hr. simpl. exact IH.
Qed.

(** Either every address is allowed, or the list splits at its first
    forbidden address. *)
Lemma first_forbidden (records : list string) :
  Forall allowedAddress records
  \/ exists before record after,
       records = before ++ record :: after
       /\ Forall allowedAddress before /\ forbiddenAddress record.
Proof.
  induction records as [|r rest IH]; [left; constructor|].
  destruct (isAddressForbidden_returns r) as [[|] Hr].
  - right. exists [], r, rest. repeat split; [constructor | exact Hr].
  - destruct IH as [Hall | (before & record & after & -> & Hbefore & Hrecord)].
    + left. constructor; assumption.
    + right. exists (r :: before), record, after.
      repeat split; [constructor; assumption | exact Hrecord].
Qed.

Lemma allowed_not_forbidden (records : list string) :
  Forall allowedAddress records -> ~ Exists forbiddenAddress records.
Proof.
  intros Hall Hex. apply List.Exists_exists in Hex as (r & Hin & Hr).
  rewrite List.Forall_forall in Hall. specialize (Hall r Hin).
  unfold allowedAddress, forbiddenAddress in *. congruence.
Qed.

(** The shape of every answer of the loop. *)
Lemma checkRecords_shape parsedUrl hostname records :
  checkRecords parsedUrl hostname records = Return (Ok parsedUrl)
  \/ exists record,
       In record records /\ forbiddenAddress record
       /\ checkRecords parsedUrl hostname records =
            Return (Denied ("Refusing to access forbidden resolved address " +:+ record
                            +:+ " for host " +:+ hostname)).
Proof.
  destruct (first_forbidden records)
    as [Hall | (before & record & after & -> & Hbefore & Hrecord)].
  - left. apply checkRecords_allowed, Hall.
  - right. exists record. split; [apply in_or_app; right; left; reflexivity|].
    split; [exact Hrecord | apply checkRecords_denied; assumption].
Qed.

Lemma passes_checks urlCandidate parsedUrl dns now st :
  URL_new urlCandidate = Return parsedUrl -> wellFormed parsedUrl ->
  validateUrl dns now urlCandidate st =
    if isValid (hostname parsedUrl)
    then
      (forbidden ← isAddressForbidden (hostname parsedUrl);
       if forbidden : bool
       then Return (Denied ("Refusing to access forbidden IP address " +:+ hostname parsedUrl))
       else Return (Ok parsedUrl),
       st)
    else
      match obtainRecords dns now (hostname parsedUrl) st with
      | (inl reason, st') => (Return (Denied reason), st')
      | (inr records, st') =>
          match records with
          | None | Some [] =>
              (Return (Denied ("DNS lookup for " +:+ hostname parsedUrl
                               +:+ " did not return any addresses")), st')
          | Some records => (checkRecords parsedUrl (hostname parsedUrl) records, st')
          end
      end.
Proof.
  intros Hparse [Hscheme Hhost]. unfold validateUrl. rewrite Hparse.
  assert (negb (String.eqb (protocol parsedUrl) "http:")
          && negb (String.eqb (protocol parsedUrl) "https:") = false) as ->.
  { destruct Hscheme as [-> | ->]; reflexivity. }
  apply String.eqb_neq in Hhost. rewrite Hhost. reflexivity.
Qed.

(** *** The cache invariant *)

Lemma obtainRecords_sound dns now hostname st outcome st' :
  cacheSound st ->
  obtainRecords dns now hostname st = (outcome, st') ->
  cacheSound st'
  /\ match outcome with
     | inl reason =>
         resolutionFails dns hostname
         /\ dnsCache st' = snd (LRU.get now hostname (dnsCache st))
     | inr records => exists record rest, records = Some (record :: rest)
     end.
Proof.
  unfold obtainRecords, cacheSound. intros Hsound.
  pose proof (LRUFacts.get_all_entries succeeded now hostname _ Hsound) as Hget.
  destruct (LRU.get now hostname (dnsCache st)) as [cached cache1] eqn:Hlookup.
  simpl in Hget. destruct cached as [records|].
  - intros [= <- <-]. split; [exact Hget|].
    destruct (LRUFacts.get_hit succeeded _ _ _ _ _ Hsound Hlookup) as [Hne _].
    destruct records as [|record rest]; [contradiction | eauto].
  - destruct (resolveHostAddresses dns hostname) as [records|error] eqn:Hresolve.
    + intros [= <- <-]. simpl.
      destruct (resolveHostAddresses_nonempty _ _ _ Hresolve) as [Hne _].
      split.
      * apply LRUFacts.set_all_entries; [|exact Hget].
        split; [exact Hne | exists dns; exact Hresolve].
      * destruct records as [|record rest]; [contradiction | eauto].
    + intros [= <- <-]. simpl. split; [exact Hget|].
      split; [|reflexivity]. unfold resolutionFails. rewrite Hresolve. reflexivity.
Qed.

Lemma validateUrl_sound dns now urlCandidate st :
  cacheSound st -> cacheSound (snd (validateUrl dns now urlCandidate st)).
Proof.
  intros Hsound. unfold validateUrl.
  destruct (URL_new urlCandidate) as [parsedUrl|error]; [|exact Hsound].
  destruct (negb _ && negb _); [exact Hsound|].
  destruct (String.eqb _ _); [exact Hsound|].
  destruct (isValid _); [exact Hsound|].
  destruct (obtainRecords dns now (hostname parsedUrl) st) as [outcome st'] eqn:Hobtain.
  destruct (obtainRecords_sound _ _ _ _ _ _ Hsound Hobtain) as [Hsound' _].
  destruct outcome as [reason|[[|record rest]|]]; exact Hsound'.
Qed.

Lemma reachable_sound st : reachable st -> cacheSound st.
Proof.
  induction 1 as [|dns now urlCandidate st _ IH|st _ IH|now hostname st _ IH
                  |dns now hostname records st _ IH Hresolve].
  - apply LRUFacts.create_all_entries.
  - apply validateUrl_sound, IH.
  - apply LRUFacts.clear_all_entries.
  - apply (LRUFacts.get_all_entries succeeded now hostname _ IH).
  - apply LRUFacts.set_all_entries; [|exact IH].
    split; [apply (resolveHostAddresses_nonempty _ _ _ Hresolve) | exists dns; exact Hresolve].
Qed.
End EgressGuardFacts.

Section EgressGuardProperties.
Context `{Ipaddr} `{UrlParser}.



(** C1. Any forbidden address denies: when the hostname is not an IP
    literal and the cache or a fresh resolution yields the list
    [records], the result is a denial that names a forbidden address
    of the list as soon as one address is forbidden, and it is
    [Ok parsedUrl] if and only if every address of the list is
    allowed. *)
Theorem any_forbidden_address_denies dns now urlCandidate st parsedUrl records st' :
  reachable st ->
  URL_new urlCandidate = Return parsedUrl ->
  wellFormed parsedUrl ->
  isValid (hostname parsedUrl) = false ->
  obtainRecords dns now (hostname parsedUrl) st = (inr (Some records), st') ->
  (Exists forbiddenAddress records ->
     exists record,
       In record records /\ forbiddenAddress record
       /\ fst (validateUrl dns now urlCandidate st) =
            Return (Denied ("Refusing to access forbidden resolved address " +:+ record
                            +:+ " for host " +:+ hostname parsedUrl)))
  /\ (fst (validateUrl dns now urlCandidate st) = Return (Ok parsedUrl)
      <-> Forall allowedAddress records).
Proof.
  intros Hreach Hparse Hwell Hname Hobtain.
  rewrite (passes_checks _ _ dns now st Hparse Hwell), Hname, Hobtain.
  destruct (obtainRecords_sound _ _ _ _ _ _ (reachable_sound _ Hreach) Hobtain)
    as [_ (record & rest & [= ->])].
  cbn [fst].
  destruct (first_forbidden (record :: rest))
    as [Hall | (before & bad & after & Hsplit & Hbefore & Hbad)].
  - split.
    + intros Hex. destruct (allowed_not_forbidden _ Hall Hex).
    + split; [intros _; exact Hall | intros _; apply checkRecords_allowed, Hall].
  - rewrite Hsplit.
    rewrite (checkRecords_denied parsedUrl (hostname parsedUrl) before bad after Hbefore Hbad).
    split.
    + intros _. exists bad. split; [apply in_or_app; right; left; reflexivity|].
      split; [exact Hbad | reflexivity].
    + split; [discriminate|].
      intros Hall. exfalso. apply (allowed_not_forbidden _ Hall).
      apply List.Exists_exists. exists bad.
      split; [apply in_or_app; right; left; reflexivity | exact Hbad].
Qed.

Lemma obtainRecords_miss dns now hostname st :
  fst (LRU.get now hostname (dnsCache st)) = None ->
  obtainRecords dns now hostname st =
    let cache1 := snd (LRU.get now hostname (dnsCache st)) in
    let called := events st ++ [CacheGet hostname; Resolve4 hostname; Resolve6 hostname] in
    match resolveHostAddresses dns hostname with
    | Return records =>
        (inr (Some records),
         mkState (LRU.set (now + latency dns hostname) hostname records cache1)
                 (called ++ [CacheSet hostname records]))
    | Throw error =>
        (inl ("Failed to resolve hostname " +:+ hostname +:+ ": " +:+ describe error),
         mkState cache1 called)
    end.
Proof.
  unfold obtainRecords, log.
  destruct (LRU.get now hostname (dnsCache st)) as [cached cache1]. simpl.
  intros ->. cbn [dnsCache events]. rewrite <- app_assoc. simpl.
  destruct (resolveHostAddresses dns hostname); reflexivity.
Qed.

Lemma obtainRecords_reason dns now hostname st reason st' :
  obtainRecords dns now hostname st = (inl reason, st') ->
  exists error,
    reason = "Failed to resolve hostname " +:+ hostname +:+ ": " +:+ describe error.
Proof.
  unfold obtainRecords.
  destruct (LRU.get now hostname (dnsCache st)) as [[records|] cache1]; [discriminate|].
  destruct (resolveHostAddresses dns hostname) as [records|error]; [discriminate|].
  intros [= <- _]. exists error. reflexivity.
Qed.

Lemma obtainRecords_step dns now hostname st outcome st' :
  obtainRecords dns now hostname st = (outcome, st') ->
  cacheStep dns now (dnsCache st) (dnsCache st')
  /\ (resolutionFails dns hostname ->
      dnsCache st' = snd (LRU.get now hostname (dnsCache st))).
Proof.
  unfold obtainRecords, resolutionFails.
  destruct (LRU.get now hostname (dnsCache st)) as [[cached|] cache1] eqn:Hlookup.
  - intros [= <- <-]. simpl.
    split; [apply (step_lookup _ _ _ _ hostname); rewrite Hlookup|]; reflexivity.
  - destruct (resolveHostAddresses dns hostname) as [records|error] eqn:Hresolve.
    + intros [= <- <-]. simpl. split; [|discriminate].
      apply (step_store _ _ _ _ hostname records Hresolve).
      * apply (resolveHostAddresses_nonempty _ _ _ Hresolve).
      * rewrite Hlookup. reflexivity.
    + intros [= <- <-]. simpl.
      split; [apply (step_lookup _ _ _ _ hostname); rewrite Hlookup|]; reflexivity.
Qed.

(** C9. The cache invariant: in every state that the module reaches,
    each entry of the DNS cache holds the non-empty address list that
    a successful resolution of its hostname returned; a call changes
    the cache only by its lookup or by storing such a list; and a call
    whose resolution fails creates or updates no entry (at most the
    lookup has touched the cache). *)
Theorem cache_holds_successful_resolutions st :
  reachable st ->
  cacheSound st
  /\ (forall dns now urlCandidate,
        cacheStep dns now (dnsCache st) (dnsCache (snd (validateUrl dns now urlCandidate st))))
  /\ (forall dns now urlCandidate parsedUrl,
        URL_new urlCandidate = Return parsedUrl ->
        resolutionFails dns (hostname parsedUrl) ->
        let after := dnsCache (snd (validateUrl dns now urlCandidate st)) in
        after = dnsCache st
        \/ after = snd (LRU.get now (hostname parsedUrl) (dnsCache st))).
Proof.
  intros Hreach. split; [apply reachable_sound, Hreach|]. split.
  - intros dns now urlCandidate. unfold validateUrl.
    destruct (URL_new urlCandidate) as [parsedUrl|error]; [|now apply step_untouched].
    destruct (negb _ && negb _); [now apply step_untouched|].
    destruct (String.eqb _ _); [now apply step_untouched|].
    destruct (isValid _); [now apply step_untouched|].
    destruct (obtainRecords dns now (hostname parsedUrl) st) as [outcome st'] eqn:Hobtain.
    destruct (obtainRecords_step _ _ _ _ _ _ Hobtain) as [Hstep _].
    destruct outcome as [reason|[[|record rest]|]]; exact Hstep.
  - intros dns now urlCandidate parsedUrl Hparse Hfails. unfold validateUrl.
    rewrite Hparse.
    destruct (negb _ && negb _); [now left|].
    destruct (String.eqb _ _); [now left|].
    destruct (isValid _); [now left|].
    destruct (obtainRecords dns now (hostname parsedUrl) st) as [outcome st'] eqn:Hobtain.
    destruct (obtainRecords_step _ _ _ _ _ _ Hobtain) as [_ Hkeeps].
    right. destruct outcome as [reason|[[|record rest]|]]; exact (Hkeeps Hfails).
Qed.

(** C10. The "did not return any addresses" branch of [validateUrl]
    is dead: in every state that the module reaches, whenever control
    arrives at that check (after a cache hit, or after a resolution
    that did not throw) [records] is a non-empty list, and no call
    returns that denial. *)
Theorem no_addresses_branch_unreachable dns now urlCandidate st :
  reachable st ->
  (forall hostname records st',
     obtainRecords dns now hostname st = (inr records, st') ->
     exists record rest, records = Some (record :: rest))
  /\ (forall hostname,
        fst (validateUrl dns now urlCandidate st) <>
          Return (Denied ("DNS lookup for " +:+ hostname
                          +:+ " did not return any addresses"))).
Proof.
  intros Hreach. pose proof (reachable_sound _ Hreach) as Hsound. split.
  - intros hostname records st' Hobtain.
    exact (proj2 (obtainRecords_sound _ _ _ _ _ _ Hsound Hobtain)).
  - intros name. unfold validateUrl.
    destruct (URL_new urlCandidate) as [parsedUrl|error]; [|simpl; discriminate].
    destruct (negb _ && negb _); [simpl; discriminate|].
    destruct (String.eqb _ _); [simpl; discriminate|].
    destruct (isValid _).
    { destruct (isAddressForbidden_returns (hostname parsedUrl)) as [[|] ->];
        simpl; discriminate. }
    destruct (obtainRecords dns now (hostname parsedUrl) st) as [outcome st'] eqn:Hobtain.
    destruct outcome as [reason|records].
    + destruct (obtainRecords_reason _ _ _ _ _ _ Hobtain) as [error ->].
      simpl. discriminate.
    + destruct (proj2 (obtainRecords_sound _ _ _ _ _ _ Hsound Hobtain))
        as (record & rest & ->).
      cbn [fst].
      destruct (checkRecords_shape parsedUrl (hostname parsedUrl) (record :: rest))
        as [-> | (bad & _ & _ & ->)]; simpl; discriminate.
Qed.

(** C5, as amended.  Resolution returns exactly when the two queries
    together give at least one address, and then it returns all of
    them; when they give none (each query failed or returned no
    record) and the cache has no live entry, [validateUrl] returns a
    denial (it neither throws nor allows) whose reason carries the
    messages of the failed queries joined by "; ", or the fixed text
    when no query failed, and nothing is stored; when both queries
    fail the reason carries both messages. *)
Theorem resolution_failure_is_denied dns now urlCandidate st parsedUrl :
  URL_new urlCandidate = Return parsedUrl ->
  wellFormed parsedUrl ->
  isValid (hostname parsedUrl) = false ->
  fst (LRU.get now (hostname parsedUrl) (dnsCache st)) = None ->
  let name := hostname parsedUrl in
  let addresses := addressesOf (resolve4 dns name) ++ addressesOf (resolve6 dns name) in
  (addresses <> [] -> resolveHostAddresses dns name = Return addresses)
  /\ (addresses = [] ->
      resolutionFails dns name
      /\ validateUrl dns now urlCandidate st =
           (Return (Denied ("Failed to resolve hostname " +:+ name +:+ ": "
                            +:+ failureText (resolve4 dns name) (resolve6 dns name))),
            mkState (snd (LRU.get now name (dnsCache st)))
                    (events st ++ [CacheGet name; Resolve4 name; Resolve6 name])))
  /\ (forall e4 e6,
        resolve4 dns name = Rejected e4 -> resolve6 dns name = Rejected e6 ->
        addresses = []
        /\ failureText (resolve4 dns name) (resolve6 dns name)
           = describe e4 +:+ "; " +:+ describe e6).
Proof.
  intros Hparse Hwell Hname Hmiss name addresses. split; [|split].
  - intros Hsome. rewrite resolveHostAddresses_unfold. fold name. fold addresses.
    destruct addresses; [contradiction | reflexivity].
  - intros Hnone.
    pose proof (resolveHostAddresses_fails dns name Hnone) as Hthrow.
    split; [unfold resolutionFails; rewrite Hthrow; reflexivity|].
    rewrite (passes_checks _ _ dns now st Hparse Hwell), Hname.
    fold name. rewrite (obtainRecords_miss dns now name st Hmiss), Hthrow.
    reflexivity.
  - intros e4 e6 H4 H6. unfold addresses, failureText. rewrite H4, H6.
    split; reflexivity.
Qed.
End EgressGuardProperties.

(** ** The admission limiter *)
Section StoreOfOneKey.
Context {V : Type}.
Import LRU.
Implicit Types (c : Cache V) (es rest : list (Entry V)) (v : V).

Lemma without_absent k es : lookup k es = None -> without k es = es.
Proof.
  unfold lookup, without. induction es as [|e es IH]; simpl; [reflexivity|].
  destruct (String.eqb (key e) k); [discriminate|].
  intros Hrest. simpl. rewrite (IH Hrest). reflexivity.
Qed.

Lemma lookup_removelast k es : lookup k es = None -> lookup k (removelast es) = None.
Proof.
  unfold lookup. induction es as [|e es IH]; simpl; [reflexivity|].
  destruct (String.eqb (key e) k) eqn:Hk; [discriminate|].
  intros Hrest. destruct es as [|e' es']; [reflexivity|].
  cbn [List.find]. rewrite Hk. exact (IH Hrest).
Qed.

Lemma get_absent now k c : absent k c -> get now k c = (None, c).
Proof. unfold absent, get. intros ->. reflexivity. Qed.

Lemma set_absent now k v c : absent k c -> holds k v now (set now k v c).
Proof.
  unfold absent, holds, set. intros Habsent. rewrite Habsent. simpl.
  eexists. split; [reflexivity|].
  destruct (max c <=? Z.of_nat (length (entries c)));
    [apply lookup_removelast|]; exact Habsent.
Qed.

Lemma lookup_head k v start rest :
  lookup k (mkEntry k v start :: rest) = Some (mkEntry k v start).
Proof. unfold lookup. simpl. rewrite String.eqb_refl. reflexivity. Qed.

Lemma without_head k v start rest :
  lookup k rest = None -> without k (mkEntry k v start :: rest) = rest.
Proof.
  intros Hrest. unfold without. simpl. rewrite String.eqb_refl. simpl.
  apply (without_absent _ _ Hrest).
Qed.

Lemma get_live now k v start c :
  holds k v start c -> now - start <= ttl c -> get now k c = (Some v, c).
Proof.
  intros (rest & Hentries & Hrest) Hlive. unfold get, isStale.
  rewrite Hentries, lookup_head. cbn [LRU.start LRU.value].
  replace (ttl c <? now - start) with false by (symmetry; apply Z.ltb_ge; lia).
  rewrite andb_false_r, (without_head _ _ _ _ Hrest).
  destruct c as [m t es]. simpl in *. subst es. reflexivity.
Qed.

Lemma get_stale now k v start c :
  holds k v start c -> ttl c <> 0 -> ttl c < now - start ->
  fst (get now k c) = None /\ absent k (snd (get now k c))
  /\ ttl (snd (get now k c)) = ttl c.
Proof.
  intros (rest & Hentries & Hrest) Httl Hold. unfold get, isStale, absent.
  rewrite Hentries, lookup_head. cbn [LRU.start LRU.value].
  replace (ttl c =? 0) with false by (symmetry; apply Z.eqb_neq; exact Httl).
  replace (ttl c <? now - start) with true by (symmetry; apply Z.ltb_lt; exact Hold).
  rewrite (without_head _ _ _ _ Hrest). simpl. auto.
Qed.

Lemma set_holds now k v v' start c :
  holds k v start c -> holds k v' now (set now k v' c).
Proof.
  intros (rest & Hentries & Hrest). unfold holds, set.
  rewrite Hentries, lookup_head. simpl. rewrite String.eqb_refl. simpl.
  exists rest. rewrite (without_absent _ _ Hrest). auto.
Qed.

Lemma ttl_set now k v c : ttl (set now k v c) = ttl c.
Proof. unfold set. destruct (lookup k (entries c)); reflexivity. Qed.
End StoreOfOneKey.

Lemma Math_min_spec (timestamps : list Z) :
  match Math_min timestamps with
  | PosInfinity => timestamps = []
  | Num oldest => In oldest timestamps /\ Forall (fun t => oldest <= t) timestamps
  end.
Proof.
  induction timestamps as [|t rest IH]; simpl; [reflexivity|].
  destruct (Math_min rest) as [m|].
  - destruct IH as [Hin Hall]. split.
    + destruct (Z.min_spec t m) as [[_ ->] | [_ ->]]; [left; reflexivity | right; exact Hin].
    + constructor; [apply Z.le_min_l|].
      eapply List.Forall_impl; [|exact Hall]. intros x Hx. simpl in Hx |- *.
      pose proof (Z.le_min_r t m). lia.
  - subst rest. split; [left; reflexivity|]. constructor; [lia | constructor].
Qed.

Lemma ceilDiv_spec (z a : Z) :
  exists q, ceilDiv (Num z) a 1000 = Num q /\ isCeiling (z + a) 1000 q.
Proof.
  exists (- (- (z + a) / 1000)). split; [reflexivity|]. unfold isCeiling.
  pose proof (Z.div_mod (- (z + a)) 1000 ltac:(lia)) as Hdiv.
  pose proof (Z.mod_pos_bound (- (z + a)) 1000 ltac:(lia)) as Hmod.
  lia.
Qed.

Section AdmissionLimiterFacts.
Variables maxRequests windowMs : Z.


Lemma inWindow_recent now stored :
  Forall (fun t => now - windowMs < t) (inWindow windowMs now stored).
Proof.
  unfold inWindow. apply List.Forall_forall. intros t Hin.
  apply filter_In in Hin as [_ Hlate]. apply Z.ltb_lt in Hlate. exact Hlate.
Qed.

Lemma inWindow_all now timestamps :
  Forall (fun t => now - windowMs < t) timestamps ->
  inWindow windowMs now (Some timestamps) = timestamps.
Proof.
  unfold inWindow. simpl. induction 1 as [|t rest Ht Hrest IH]; simpl; [reflexivity|].
  apply Z.ltb_lt in Ht. rewrite Ht, IH. reflexivity.
Qed.

Lemma inWindow_length now timestamps :
  (length (inWindow windowMs now (Some timestamps)) <= length timestamps)%nat.
Proof. unfold inWindow. simpl. apply List.filter_length_le. Qed.

Lemma retryAfter_positive now stored :
  positive (ceilDiv (Math_min (inWindow windowMs now stored)) (windowMs - now) 1000).
Proof.
  pose proof (Math_min_spec (inWindow windowMs now stored)) as Hmin.
  destruct (Math_min (inWindow windowMs now stored)) as [oldest|]; [|exact I].
  destruct Hmin as [Hin _].
  pose proof (inWindow_recent now stored) as Hrecent.
  rewrite List.Forall_forall in Hrecent. specialize (Hrecent oldest Hin).
  destruct (ceilDiv_spec oldest (windowMs - now)) as (q & -> & Hq).
  unfold isCeiling in Hq. simpl. lia.
Qed.

Lemma rateLimiter_admits remoteAddress now st :
  let ip := getClientIp remoteAddress in
  let timestamps := inWindow windowMs now (fst (LRU.get now ip (rateLimitStore st))) in
  Z.of_nat (length timestamps) < maxRequests ->
  rateLimiter maxRequests windowMs remoteAddress now st =
    (Next,
     mkLimiter (LRU.set now ip (timestamps ++ [now])
                  (snd (LRU.get now ip (rateLimitStore st))))
               (calls st ++ [StoreGet ip; StoreSet ip (timestamps ++ [now])])).
Proof.
  intros ip timestamps Hunder. unfold rateLimiter. fold ip.
  destruct (LRU.get now ip (rateLimitStore st)) as [stored store1]. simpl in *.
  fold timestamps.
  replace (maxRequests <=? Z.of_nat (length timestamps)) with false
    by (symmetry; apply Z.leb_gt; exact Hunder).
  reflexivity.
Qed.

Lemma rateLimiter_denies remoteAddress now st :
  let ip := getClientIp remoteAddress in
  let timestamps := inWindow windowMs now (fst (LRU.get now ip (rateLimitStore st))) in
  maxRequests <= Z.of_nat (length timestamps) ->
  rateLimiter maxRequests windowMs remoteAddress now st =
    (TooManyRequests (ceilDiv (Math_min timestamps) (windowMs - now) 1000),
     mkLimiter (snd (LRU.get now ip (rateLimitStore st)))
               (calls st ++ [StoreGet ip;
                             ConsoleWarn ("[RateLimit] Limit exceeded for IP: " +:+ ip)])).
Proof.
  intros ip timestamps Hfull. unfold rateLimiter. fold ip.
  destruct (LRU.get now ip (rateLimitStore st)) as [stored store1]. simpl in *.
  fold timestamps.
  replace (maxRequests <=? Z.of_nat (length timestamps)) with true
    by (symmetry; apply Z.leb_le; exact Hfull).
  reflexivity.
Qed.

Lemma serve_cons remoteAddress now later st :
  serve maxRequests windowMs remoteAddress (now :: later) st =
    (fst (rateLimiter maxRequests windowMs remoteAddress now st)
       :: fst (serve maxRequests windowMs remoteAddress later
                 (snd (rateLimiter maxRequests windowMs remoteAddress now st))),
     snd (serve maxRequests windowMs remoteAddress later
            (snd (rateLimiter maxRequests windowMs remoteAddress now st)))).
Proof.
  cbn [serve]. destruct (rateLimiter maxRequests windowMs remoteAddress now st) as [v st1]. cbn [fst snd].
  destruct (serve maxRequests windowMs remoteAddress later st1) as [vs st2].
  reflexivity.
Qed.

(** A request of a client that has no entry is admitted. *)
Lemma admits_new remoteAddress now st :
  0 < maxRequests ->
  absent (getClientIp remoteAddress) (rateLimitStore st) ->
  fst (rateLimiter maxRequests windowMs remoteAddress now st) = Next
  /\ holds (getClientIp remoteAddress) [now] now
       (rateLimitStore (snd (rateLimiter maxRequests windowMs remoteAddress now st)))
  /\ LRU.ttl (rateLimitStore (snd (rateLimiter maxRequests windowMs remoteAddress now st)))
     = LRU.ttl (rateLimitStore st).
Proof.
  intros Hmax Habsent.
  pose proof (get_absent now _ _ Habsent) as Hget.
  rewrite rateLimiter_admits; rewrite Hget; simpl; [|exact Hmax].
  split; [reflexivity|]. split; [apply set_absent, Habsent | apply ttl_set].
Qed.

(** A request within the window after fewer than [maxRequests]
    admitted ones is admitted and recorded. *)
Lemma admits_next remoteAddress now st timestamps start :
  holds (getClientIp remoteAddress) timestamps start (rateLimitStore st) ->
  now - start <= LRU.ttl (rateLimitStore st) ->
  Forall (fun t => now - windowMs < t) timestamps ->
  Z.of_nat (length timestamps) < maxRequests ->
  fst (rateLimiter maxRequests windowMs remoteAddress now st) = Next
  /\ holds (getClientIp remoteAddress) (timestamps ++ [now]) now
       (rateLimitStore (snd (rateLimiter maxRequests windowMs remoteAddress now st)))
  /\ LRU.ttl (rateLimitStore (snd (rateLimiter maxRequests windowMs remoteAddress now st)))
     = LRU.ttl (rateLimitStore st).
Proof.
  intros Hholds Hlive Hrecent Hunder.
  pose proof (get_live now _ _ _ _ Hholds Hlive) as Hget.
  rewrite rateLimiter_admits; rewrite Hget; cbn [fst snd];
    rewrite (inWindow_all _ _ Hrecent); [|exact Hunder].
  split; [reflexivity|]. cbn [rateLimitStore].
  split; [apply (set_holds _ _ _ _ _ _ Hholds) | apply ttl_set].
Qed.

(** A request within the window after [maxRequests] admitted ones is
    denied with a positive retry hint. *)
Lemma denies_full remoteAddress now st timestamps start :
  holds (getClientIp remoteAddress) timestamps start (rateLimitStore st) ->
  now - start <= LRU.ttl (rateLimitStore st) ->
  Forall (fun t => now - windowMs < t) timestamps ->
  maxRequests <= Z.of_nat (length timestamps) ->
  (exists retryAfter,
     fst (rateLimiter maxRequests windowMs remoteAddress now st) = TooManyRequests retryAfter
     /\ positive retryAfter)
  /\ rateLimitStore (snd (rateLimiter maxRequests windowMs remoteAddress now st)) = rateLimitStore st.
Proof.
  intros Hholds Hlive Hrecent Hfull.
  pose proof (get_live now _ _ _ _ Hholds Hlive) as Hget.
  rewrite rateLimiter_denies; rewrite Hget; cbn [fst snd];
    [|rewrite (inWindow_all _ _ Hrecent); exact Hfull].
  split; [|reflexivity].
  eexists. split; [reflexivity|].
  apply (retryAfter_positive now (Some timestamps)).
Qed.

(** Once the oldest recorded request has left the window, the next
    request is admitted, whether or not the entry has expired. *)
Lemma admits_after_window remoteAddress now st oldest timestamps start :
  holds (getClientIp remoteAddress) (oldest :: timestamps) start (rateLimitStore st) ->
  oldest <= now - windowMs ->
  Z.of_nat (length timestamps) < maxRequests ->
  fst (rateLimiter maxRequests windowMs remoteAddress now st) = Next.
Proof.
  intros Hholds Hgone Hunder.
  rewrite rateLimiter_admits; [reflexivity|].
  destruct Hholds as (rest & Hentries & Hrest).
  unfold LRU.get. rewrite Hentries, lookup_head.
  destruct (LRU.isStale _ _ _); cbn [fst].
  - unfold inWindow. simpl. lia.
  - pose proof (inWindow_length now timestamps) as Hlen.
    unfold inWindow in *. simpl in *.
    replace (now - windowMs <? oldest) with false by (symmetry; apply Z.ltb_ge; exact Hgone).
    lia.
Qed.
End AdmissionLimiterFacts.

(** A denied call makes no [rateLimitStore.set]. *)
Lemma denied_call_writes_nothing maxRequests windowMs remoteAddress now st :
  maxRequests
    <= Z.of_nat (length (inWindow windowMs now
                           (fst (LRU.get now (getClientIp remoteAddress) (rateLimitStore st))))) ->
  ~ persistsTrimmed maxRequests windowMs remoteAddress now st.
Proof.
  intros Hfull (written & before & after & Hcalls & _).
  rewrite rateLimiter_denies in Hcalls by exact Hfull. cbn [snd calls] in Hcalls.
  apply app_inv_head in Hcalls.
  destruct before as [|e1 [|e2 [|e3 before]]]; discriminate.
Qed.

(** C6, as amended.  A call writes to the store exactly when it is
    admitted: an admitted call persists the trimmed timestamp list of
    the identity with [now] appended; a denied call makes no write, and
    the store is left as the lookup left it. *)
Theorem only_admitted_calls_persist maxRequests windowMs remoteAddress now st :
  let ip := getClientIp remoteAddress in
  let afterLookup := snd (LRU.get now ip (rateLimitStore st)) in
  let timestamps := inWindow windowMs now (fst (LRU.get now ip (rateLimitStore st))) in
  (Z.of_nat (length timestamps) < maxRequests ->
     rateLimiter maxRequests windowMs remoteAddress now st =
       (Next,
        mkLimiter (LRU.set now ip (timestamps ++ [now]) afterLookup)
                  (calls st ++ [StoreGet ip; StoreSet ip (timestamps ++ [now])]))
     /\ persistsTrimmed maxRequests windowMs remoteAddress now st)
  /\ (maxRequests <= Z.of_nat (length timestamps) ->
        (exists retryAfter,
           fst (rateLimiter maxRequests windowMs remoteAddress now st)
             = TooManyRequests retryAfter)
        /\ rateLimitStore (snd (rateLimiter maxRequests windowMs remoteAddress now st))
           = afterLookup
        /\ ~ persistsTrimmed maxRequests windowMs remoteAddress now st).
Proof.
  intros ip afterLookup timestamps. split.
  - intros Hunder.
    pose proof (rateLimiter_admits maxRequests windowMs remoteAddress now st Hunder) as Hadmit.
    split; [exact Hadmit|].
    unfold persistsTrimmed. rewrite Hadmit. cbn [snd calls].
    exists (timestamps ++ [now]), [StoreGet ip], [].
    split; [reflexivity | exists [now]; reflexivity].
  - intros Hfull.
    pose proof (rateLimiter_denies maxRequests windowMs remoteAddress now st Hfull) as Hdeny.
    rewrite Hdeny. cbn [fst snd rateLimitStore].
    split; [eexists; reflexivity|]. split; [reflexivity|].
    apply denied_call_writes_nothing, Hfull.
Qed.

(** C7. The sliding window.  The handler keeps the stored timestamps
    of the identity that are later than [now - windowMs]; when at least
    [maxRequests] remain it answers 429 with
    [retryAfter = ceil((oldest + windowMs - now) / 1000)], which is
    strictly positive; otherwise it appends [now], stores the list and
    lets the request through.  With the defaults (5 requests per 60000
    ms), five requests of a new client within one window are admitted,
    a sixth within the window is denied with a positive retry hint, and
    a request made once the window has elapsed is admitted again. *)
Theorem sliding_window_decision :
  (forall maxRequests windowMs remoteAddress now st,
     let ip := getClientIp remoteAddress in
     let stored := fst (LRU.get now ip (rateLimitStore st)) in
     let timestamps := inWindow windowMs now stored in
     (forall t, In t timestamps <-> In t (default [] stored) /\ now - windowMs < t)
     /\ (maxRequests <= Z.of_nat (length timestamps) ->
           exists retryAfter,
             fst (rateLimiter maxRequests windowMs remoteAddress now st)
               = TooManyRequests retryAfter
             /\ positive retryAfter
             /\ forall oldest,
                  In oldest timestamps -> Forall (fun t => oldest <= t) timestamps ->
                  exists q, retryAfter = Num q
                            /\ isCeiling (oldest + windowMs - now) 1000 q)
     /\ (Z.of_nat (length timestamps) < maxRequests ->
           rateLimiter maxRequests windowMs remoteAddress now st =
             (Next,
              mkLimiter (LRU.set now ip (timestamps ++ [now])
                           (snd (LRU.get now ip (rateLimitStore st))))
                        (calls st ++ [StoreGet ip; StoreSet ip (timestamps ++ [now])]))))
  /\ (forall remoteAddress st t1 t2 t3 t4 t5 t6 t7,
        absent (getClientIp remoteAddress) (rateLimitStore st) ->
        LRU.ttl (rateLimitStore st) = 60000 ->
        t1 <= t2 <= t3 -> t3 <= t4 <= t5 -> t5 <= t6 < t1 + 60000 ->
        t6 <= t7 -> t1 + 60000 <= t7 ->
        exists retryAfter,
          positive retryAfter
          /\ fst (serve 5 60000 remoteAddress [t1; t2; t3; t4; t5; t6; t7] st)
             = [Next; Next; Next; Next; Next; TooManyRequests retryAfter; Next]).
Proof.
  split.
  - intros maxRequests windowMs remoteAddress now st ip stored timestamps.
    split; [|split].
    + intros t. unfold timestamps, inWindow. rewrite filter_In, Z.ltb_lt. reflexivity.
    + intros Hfull.
      rewrite (rateLimiter_denies maxRequests windowMs remoteAddress now st Hfull).
      cbn [fst]. fold ip. fold stored. fold timestamps.
      eexists. split; [reflexivity|].
      split; [apply retryAfter_positive|].
      intros oldest Hin Hleast.
      pose proof (Math_min_spec timestamps) as Hmin.
      destruct (Math_min timestamps) as [m|]; [|rewrite Hmin in Hin; destruct Hin].
      destruct Hmin as [Hm Hall].
      rewrite List.Forall_forall in Hleast, Hall.
      assert (m = oldest) as -> by (pose proof (Hleast m Hm); pose proof (Hall oldest Hin); lia).
      destruct (ceilDiv_spec oldest (windowMs - now)) as (q & Hq & Hceil).
      exists q. split; [exact Hq|].
      replace (oldest + windowMs - now) with (oldest + (windowMs - now)) by lia.
      exact Hceil.
    + intros Hunder.
      exact (rateLimiter_admits maxRequests windowMs remoteAddress now st Hunder).
  - intros remoteAddress st t1 t2 t3 t4 t5 t6 t7 Habsent Httl H123 H345 H56 H67 Helapsed.
    rewrite !serve_cons. cbn [serve fst snd].
    destruct (admits_new 5 60000 remoteAddress t1 st ltac:(lia) Habsent)
      as (-> & Hs1 & Httl1).
    rewrite Httl in Httl1.
    destruct (admits_next 5 60000 remoteAddress t2 _ _ _ Hs1
                ltac:(rewrite Httl1; lia) ltac:(repeat constructor; lia) ltac:(simpl; lia))
      as (-> & Hs2 & Httl2).
    rewrite Httl1 in Httl2.
    destruct (admits_next 5 60000 remoteAddress t3 _ _ _ Hs2
                ltac:(rewrite Httl2; lia) ltac:(repeat constructor; lia) ltac:(simpl; lia))
      as (-> & Hs3 & Httl3).
    rewrite Httl2 in Httl3.
    destruct (admits_next 5 60000 remoteAddress t4 _ _ _ Hs3
                ltac:(rewrite Httl3; lia) ltac:(repeat constructor; lia) ltac:(simpl; lia))
      as (-> & Hs4 & Httl4).
    rewrite Httl3 in Httl4.
    destruct (admits_next 5 60000 remoteAddress t5 _ _ _ Hs4
                ltac:(rewrite Httl4; lia) ltac:(repeat constructor; lia) ltac:(simpl; lia))
      as (-> & Hs5 & Httl5).
    rewrite Httl4 in Httl5.
    destruct (denies_full 5 60000 remoteAddress t6 _ _ _ Hs5
                ltac:(rewrite Httl5; lia) ltac:(repeat constructor; lia) ltac:(simpl; lia))
      as ((retryAfter & -> & Hpositive) & Hkept).
    exists retryAfter. split; [exact Hpositive|].
    rewrite <- Hkept in Hs5. cbn [app] in Hs5.
    rewrite (admits_after_window 5 60000 remoteAddress t7 _ _ _ _ Hs5
               ltac:(lia) ltac:(simpl; lia)).
    reflexivity.
Qed.

(** ** The properties on the reference instances *)
Section Examples.
#[local] Existing Instance Reference.ipaddr.
#[local] Existing Instance Reference.urlParser.
Local Open Scope string_scope.

(** On the reference instance, the IPv4-mapped encoding of every IPv4
    address is classified [ipv4Mapped]. *)
Lemma reference_mapped_range (a b c d : Z) :
  rangeV6 (mappedParts [a; b; c; d]) = "ipv4Mapped".
Proof. reflexivity. Qed.

Example classifier_examples :
  map isAddressForbidden
      ["127.0.0.1"; "10.0.0.1"; "169.254.0.1"; "::1"; "fc00::1"; "93.184.216.34";
       "example.com"]
  = [Return true; Return true; Return true; Return true; Return true; Return false;
     Return true].
Proof. vm_compute. reflexivity. Qed.

Lemma mapped_same_verdict_witness :
  isAddressForbidden "::ffff:127.0.0.1" = isAddressForbidden "127.0.0.1"
  /\ isAddressForbidden "127.0.0.1" = Return true.
Proof.
  split; [|vm_compute; reflexivity].
  apply (mapped_same_verdict "127.0.0.1" "::ffff:127.0.0.1" 127 0 0 1);
    try (unfold isOctet; lia); vm_compute; reflexivity.
Defined.



Lemma any_forbidden_address_denies_witness :
  (Exists forbiddenAddress ["93.184.216.34"; "10.0.0.1"] ->
     exists record,
       In record ["93.184.216.34"; "10.0.0.1"] /\ forbiddenAddress record
       /\ fst (validateUrl exampleResolver 0 "https://evil.test/x" initialState) =
            Return (Denied ("Refusing to access forbidden resolved address " +:+ record
                            +:+ " for host " +:+ "evil.test")))
  /\ (fst (validateUrl exampleResolver 0 "https://evil.test/x" initialState)
        = Return (Ok (mkURL "https:" "evil.test" "https://evil.test/x"))
      <-> Forall allowedAddress ["93.184.216.34"; "10.0.0.1"]).
Proof.
  eapply (any_forbidden_address_denies exampleResolver 0 "https://evil.test/x" initialState
            (mkURL "https:" "evil.test" "https://evil.test/x")).
  - apply reach_initial.
  - reflexivity.
  - split; [right; reflexivity | discriminate].
  - vm_compute. reflexivity.
  - vm_compute. reflexivity.
Defined.

Lemma cache_holds_successful_resolutions_witness :
  cacheSound warmState
  /\ (forall dns now urlCandidate,
        cacheStep dns now (dnsCache warmState)
          (dnsCache (snd (validateUrl dns now urlCandidate warmState))))
  /\ (forall dns now urlCandidate parsedUrl,
        URL_new urlCandidate = Return parsedUrl ->
        resolutionFails dns (hostname parsedUrl) ->
        let after := dnsCache (snd (validateUrl dns now urlCandidate warmState)) in
        after = dnsCache warmState
        \/ after = snd (LRU.get now (hostname parsedUrl) (dnsCache warmState))).
Proof.
  apply (cache_holds_successful_resolutions warmState).
  apply reach_validateUrl, reach_initial.
Defined.

Lemma no_addresses_branch_unreachable_witness :
  (forall hostname records st',
     obtainRecords exampleResolver 1000 hostname warmState = (inr records, st') ->
     exists record rest, records = Some (record :: rest))
  /\ (forall hostname,
        fst (validateUrl exampleResolver 1000 "https://example.com/other" warmState) <>
          Return (Denied ("DNS lookup for " +:+ hostname
                          +:+ " did not return any addresses"))).
Proof.
  apply (no_addresses_branch_unreachable exampleResolver 1000
           "https://example.com/other" warmState).
  apply reach_validateUrl, reach_initial.
Defined.

(** The branch is present in the model: outside the reachable states,
    an entry with no address triggers it. *)
Example no_addresses_branch_in_unsound_state :
  fst (validateUrl exampleResolver 1000 "http://example.test/" emptyEntryState)
    = Return (Denied "DNS lookup for example.test did not return any addresses").
Proof. vm_compute. reflexivity. Qed.

(** C5, the reading that fails: with the A query rejected and the
    AAAA query returning no record, resolution fails although the
    attempts neither both fail nor both return empty. *)
Lemma mixed_failure_counterexample :
  ~ failsOnlyIfBothFailOrBothEmpty mixedResolver "example.test".
Proof.
  intros Hclaim.
  destruct (Hclaim eq_refl) as [(e4 & e6 & _ & Hsix) | [Hfour _]]; discriminate.
Qed.

Example mixed_failure_reason :
  fst (validateUrl mixedResolver 0 "http://example.test/" initialState)
    = Return (Denied "Failed to resolve hostname example.test: queryA ENODATA example.test").
Proof. vm_compute. reflexivity. Qed.

Lemma resolution_failure_is_denied_witness :
  resolutionFails exampleResolver "nowhere.test"
  /\ validateUrl exampleResolver 0 "https://nowhere.test/" initialState =
       (Return (Denied ("Failed to resolve hostname nowhere.test: "
                        +:+ "queryA ENOTFOUND nowhere.test; queryAaaa ENOTFOUND nowhere.test")),
        mkState (dnsCache initialState)
                [CacheGet "nowhere.test"; Resolve4 "nowhere.test"; Resolve6 "nowhere.test"]).
Proof.
  refine (proj1 (proj2 (resolution_failure_is_denied exampleResolver 0 "https://nowhere.test/"
                          initialState (mkURL "https:" "nowhere.test" "https://nowhere.test/")
                          _ _ _ _)) _).
  - reflexivity.
  - split; [right; reflexivity | discriminate].
  - vm_compute. reflexivity.
  - reflexivity.
  - reflexivity.
Defined.
End Examples.

(** C6, the reading that fails: the sixth request of the minute is
    denied and makes no [rateLimitStore.set]. *)
Lemma denied_call_counterexample :
  ~ persistsTrimmed 5 60000 (Some "203.0.113.9"%string) 1005 exhaustedLimiter.
Proof. apply denied_call_writes_nothing. vm_compute. discriminate. Qed.

Lemma only_admitted_calls_persist_witness :
  persistsTrimmed 5 60000 (Some "203.0.113.9"%string) 1000 (initialLimiter 60000)
  /\ fst (rateLimiter 5 60000 (Some "203.0.113.9"%string) 1005 exhaustedLimiter)
     = TooManyRequests (Num 60)
  /\ rateLimitStore (snd (rateLimiter 5 60000 (Some "203.0.113.9"%string) 1005 exhaustedLimiter))
     = rateLimitStore exhaustedLimiter.
Proof.
  split.
  - apply (only_admitted_calls_persist 5 60000 (Some "203.0.113.9"%string) 1000
             (initialLimiter 60000)).
    vm_compute. reflexivity.
  - destruct (proj2 (only_admitted_calls_persist 5 60000 (Some "203.0.113.9"%string) 1005
                       exhaustedLimiter))
      as (_ & Hstore & _).
    + vm_compute. discriminate.
    + split; [vm_compute; reflexivity | rewrite Hstore; vm_compute; reflexivity].
Defined.

Lemma sliding_window_decision_witness :
  exists retryAfter,
    positive retryAfter
    /\ fst (serve 5 60000 (Some "203.0.113.9"%string)
              [1000; 1001; 1002; 1003; 1004; 1005; 61000] (initialLimiter 60000))
       = [Next; Next; Next; Next; Next; TooManyRequests retryAfter; Next].
Proof.
  apply (proj2 sliding_window_decision (Some "203.0.113.9"%string) (initialLimiter 60000)
           1000 1001 1002 1003 1004 1005 61000); try lia; reflexivity.
Defined.

(** ** More about the store *)
Section StoreInvariants.
Context {V : Type}.
Import LRU.
Implicit Types (c : Cache V) (es rest : list (Entry V)) (v : V).

Lemma lookup_without_same k es : lookup k (without k es) = None.
Proof.
  unfold lookup, without. induction es as [|e es IH]; simpl; [reflexivity|].
  destruct (String.eqb (key e) k) eqn:Hk; simpl; [exact IH|].
  rewrite Hk. exact IH.
Qed.

Lemma lookup_without_other k k' es :
  k <> k' -> lookup k' (without k es) = lookup k' es.
Proof.
  intros Hne. unfold lookup, without. induction es as [|e es IH]; simpl; [reflexivity|].
  destruct (String.eqb (key e) k) eqn:Hk; simpl.
  - apply String.eqb_eq in Hk. subst k.
    replace (String.eqb (key e) k') with false
      by (symmetry; apply String.eqb_neq; exact Hne).
    exact IH.
  - destruct (String.eqb (key e) k'); [reflexivity | exact IH].
Qed.

Lemma lookup_removelast_other k es e :
  lookup k (removelast es) = Some e -> lookup k es = Some e.
Proof.
  unfold lookup. induction es as [|e' es IH]; simpl; [discriminate|].
  destruct es as [|e'' es']; [discriminate|].
  cbn [List.find]. destruct (String.eqb (key e') k); [trivial | exact IH].
Qed.

Lemma set_holds_always now k v c : holds k v now (set now k v c).
Proof.
  unfold holds, set. destruct (lookup k (entries c)) eqn:Hl; simpl.
  - eexists. split; [reflexivity | apply lookup_without_same].
  - eexists. split; [reflexivity|].
    destruct (max c <=? Z.of_nat (length (entries c)));
      [apply lookup_removelast|]; exact Hl.
Qed.

Lemma get_hit_holds now k c v c' :
  get now k c = (Some v, c') -> exists start, holds k v start c' /\ ttl c' = ttl c.
Proof.
  unfold get, holds.
  destruct (lookup k (entries c)) as [e|] eqn:Hl; [|discriminate].
  destruct (isStale c now e); [discriminate|].
  intros [= <- <-]. apply LRUFacts.lookup_In in Hl as [_ Hkey].
  exists (start e). split; [|reflexivity].
  exists (without k (entries c)). simpl.
  split; [destruct e; simpl in *; subst; reflexivity | apply lookup_without_same].
Qed.

Lemma ttl_get now k c : ttl (snd (get now k c)) = ttl c.
Proof.
  unfold get. destruct (lookup k (entries c)) as [e|]; [|reflexivity].
  destruct (isStale c now e); reflexivity.
Qed.

Lemma max_get now k c : max (snd (get now k c)) = max c.
Proof.
  unfold get. destruct (lookup k (entries c)) as [e|]; [|reflexivity].
  destruct (isStale c now e); reflexivity.
Qed.

Lemma max_set now k v c : max (set now k v c) = max c.
Proof. unfold set. destruct (lookup k (entries c)); reflexivity. Qed.

Lemma keys_without k es :
  List.NoDup (map key es) -> List.NoDup (map key (without k es))
  /\ (forall x, In x (map key (without k es)) -> In x (map key es) /\ x <> k).
Proof.
  unfold without. induction es as [|e es IH]; simpl; intros Hnd.
  - split; [constructor | intros x []].
  - apply List.NoDup_cons_iff in Hnd as [Hnotin Hnd]. destruct (IH Hnd) as [IHnd IHin].
    destruct (String.eqb (key e) k) eqn:Hk; simpl.
    + split; [exact IHnd|]. intros x Hx. destruct (IHin x Hx). auto.
    + apply String.eqb_neq in Hk. split.
      * apply List.NoDup_cons_iff. split; [|exact IHnd].
        intros Hin. apply Hnotin, (IHin _ Hin).
      * intros x [<- | Hx]; [auto|]. destruct (IHin x Hx). auto.
Qed.

Lemma length_without k es : (length (without k es) <= length es)%nat.
Proof. unfold without. apply List.filter_length_le. Qed.

Lemma length_without_present k es e :
  lookup k es = Some e -> (length (without k es) < length es)%nat.
Proof.
  unfold lookup, without. induction es as [|e' es IH]; simpl; [discriminate|].
  destruct (String.eqb (key e') k); simpl.
  - intros _. pose proof (List.filter_length_le (fun e0 => negb (String.eqb (key e0) k)) es).
    lia.
  - intros Hfind. specialize (IH Hfind). lia.
Qed.

Lemma keys_removelast es :
  List.NoDup (map key es) -> List.NoDup (map key (removelast es))
  /\ (forall x, In x (map key (removelast es)) -> In x (map key es)).
Proof.
  induction es as [|e es IH]; simpl; intros Hnd.
  - split; [constructor | intros x []].
  - destruct es as [|e' es']; [split; [constructor | intros x []]|].
    apply List.NoDup_cons_iff in Hnd as [Hnotin Hnd]. destruct (IH Hnd) as [IHnd IHin].
    split.
    + cbn [map]. apply List.NoDup_cons_iff. split; [|exact IHnd].
      intros Hin. apply Hnotin, IHin, Hin.
    + cbn [map]. intros x [<- | Hx]; [left; reflexivity | right; apply IHin, Hx].
Qed.

Lemma length_removelast es :
  es <> [] -> length (removelast es) = (length es - 1)%nat.
Proof.
  intros _. rewrite removelast_firstn_len, length_firstn. lia.
Qed.

Lemma lookup_absent_keys k es : lookup k es = None -> ~ In k (map key es).
Proof.
  unfold lookup. intros Hnone Hin. apply in_map_iff in Hin as (e & Hkey & Hin).
  apply (find_none _ _ Hnone) in Hin. rewrite Hkey, String.eqb_refl in Hin. discriminate.
Qed.

Lemma get_wellKept now k c : wellKept c -> wellKept (snd (get now k c)).
Proof.
  unfold wellKept, get. intros [Hnd Hlen].
  destruct (lookup k (entries c)) as [e|] eqn:Hl; [|split; assumption].
  destruct (keys_without k _ Hnd) as [Hnd' Hin'].
  pose proof (length_without_present k _ _ Hl) as Hshort.
  destruct (isStale c now e); simpl.
  - split; [exact Hnd' | lia].
  - split; [|lia]. apply List.NoDup_cons_iff. split; [|exact Hnd'].
    apply LRUFacts.lookup_In in Hl as [_ ->]. intros Hin. destruct (Hin' _ Hin). auto.
Qed.

Lemma set_wellKept now k v c : 0 < max c -> wellKept c -> wellKept (set now k v c).
Proof.
  unfold wellKept, set. intros Hmax [Hnd Hlen].
  destruct (lookup k (entries c)) as [e|] eqn:Hl; simpl.
  - destruct (keys_without k _ Hnd) as [Hnd' Hin'].
    pose proof (length_without_present k _ _ Hl) as Hshort.
    split; [|lia]. apply List.NoDup_cons_iff. split; [|exact Hnd'].
    intros Hin. destruct (Hin' _ Hin). auto.
  - pose proof (lookup_absent_keys _ _ Hl) as Hfresh.
    destruct (max c <=? Z.of_nat (length (entries c))) eqn:Hfull.
    + destruct (keys_removelast _ Hnd) as [Hnd' Hin'].
      split; [apply List.NoDup_cons_iff; split; [|exact Hnd']; intros Hin; apply Hfresh, Hin', Hin|].
      simpl. apply Z.leb_le in Hfull.
      destruct (entries c) as [|e es] eqn:Hes; [simpl in *; lia|].
      rewrite length_removelast by discriminate. simpl length in *. lia.
    + apply Z.leb_gt in Hfull.
      split; [apply List.NoDup_cons_iff; split; assumption | simpl; lia].
Qed.

Lemma clear_wellKept c : 0 <= max c -> wellKept (clear c).
Proof. intros Hmax. split; [constructor | simpl; lia]. Qed.

(** What a lookup reads depends on the entry of the key and on the
    time-to-live only. *)
Lemma get_fst_ext now k c c' :
  lookup k (entries c) = lookup k (entries c') -> ttl c = ttl c' ->
  fst (get now k c) = fst (get now k c').
Proof.
  unfold get, isStale. intros <- <-.
  destruct (lookup k (entries c)) as [e|]; [|reflexivity].
  destruct (negb (ttl c =? 0) && (ttl c <? now - start e)); reflexivity.
Qed.
End StoreInvariants.

(** ** More about the egress guard *)
Section EgressGuardExtras.
Context `{Ipaddr} `{UrlParser}.

Lemma checkRecords_returns parsedUrl hostname records :
  exists result, checkRecords parsedUrl hostname records = Return result.
Proof.
  destruct (checkRecords_shape parsedUrl hostname records) as [-> | (bad & _ & _ & ->)];
    eexists; reflexivity.
Qed.

(** X1. [validateUrl] never throws: for every candidate string, state
    of the cache, time and answer of the resolver it returns a result,
    [Ok] or [Denied]; the calls of the address package that could
    throw ([ipaddr.parse], [toIPv4Address]) are only reached behind
    their guards. *)
Theorem validateUrl_never_throws dns now urlCandidate st :
  exists result, fst (validateUrl dns now urlCandidate st) = Return result.
Proof.
  unfold validateUrl.
  destruct (URL_new urlCandidate) as [parsedUrl|error]; [|eexists; reflexivity].
  destruct (negb _ && negb _); [eexists; reflexivity|].
  destruct (String.eqb _ _); [eexists; reflexivity|].
  destruct (isValid _).
  - destruct (isAddressForbidden_returns (hostname parsedUrl)) as [[|] ->];
      eexists; reflexivity.
  - destruct (obtainRecords dns now (hostname parsedUrl) st) as [[reason|records] st'].
    + eexists; reflexivity.
    + destruct records as [[|record rest]|]; try (eexists; reflexivity).
      apply checkRecords_returns.
Qed.

Lemma obtainRecords_hit dns now hostname st records start :
  holds hostname records start (dnsCache st) ->
  now - start <= LRU.ttl (dnsCache st) ->
  obtainRecords dns now hostname st =
    (inr (Some records), mkState (dnsCache st) (events st ++ [CacheGet hostname])).
Proof.
  intros Hholds Hlive. unfold obtainRecords.
  rewrite (get_live now _ _ _ _ Hholds Hlive). reflexivity.
Qed.

Lemma validateUrl_hit dns now urlCandidate st parsedUrl record rest start :
  URL_new urlCandidate = Return parsedUrl ->
  wellFormed parsedUrl ->
  isValid (hostname parsedUrl) = false ->
  holds (hostname parsedUrl) (record :: rest) start (dnsCache st) ->
  now - start <= LRU.ttl (dnsCache st) ->
  validateUrl dns now urlCandidate st =
    (checkRecords parsedUrl (hostname parsedUrl) (record :: rest),
     mkState (dnsCache st) (events st ++ [CacheGet (hostname parsedUrl)])).
Proof.
  intros Hparse Hwell Hname Hholds Hlive.
  rewrite (passes_checks _ _ dns now st Hparse Hwell), Hname.
  rewrite (obtainRecords_hit dns now _ st _ _ Hholds Hlive). reflexivity.
Qed.

Lemma validateUrl_miss dns now urlCandidate st parsedUrl :
  URL_new urlCandidate = Return parsedUrl ->
  wellFormed parsedUrl ->
  isValid (hostname parsedUrl) = false ->
  fst (LRU.get now (hostname parsedUrl) (dnsCache st)) = None ->
  let name := hostname parsedUrl in
  let cache1 := snd (LRU.get now name (dnsCache st)) in
  let called := events st ++ [CacheGet name; Resolve4 name; Resolve6 name] in
  validateUrl dns now urlCandidate st =
    match resolveHostAddresses dns name with
    | Return records =>
        (checkRecords parsedUrl name records,
         mkState (LRU.set (now + latency dns name) name records cache1)
                 (called ++ [CacheSet name records]))
    | Throw error =>
        (Return (Denied ("Failed to resolve hostname " +:+ name +:+ ": " +:+ describe error)),
         mkState cache1 called)
    end.
Proof.
  intros Hparse Hwell Hname Hmiss name cache1 called.
  rewrite (passes_checks _ _ dns now st Hparse Hwell), Hname.
  fold name. rewrite (obtainRecords_miss dns now name st Hmiss).
  destruct (resolveHostAddresses dns name) as [records|error] eqn:Hresolve; [|reflexivity].
  destruct (resolveHostAddresses_nonempty _ _ _ Hresolve) as [Hne _].
  destruct records as [|record rest]; [contradiction | reflexivity].
Qed.

(** X2. Cache idempotence.  When a validation finds no live entry for
    the hostname and its resolution succeeds, a second validation of
    the same URL made while the entry is fresh (no later than the
    time-to-live after the store) gives the same outcome, reads the
    cache once and makes no resolver call, whatever the resolver would
    answer by then. *)
Theorem second_validation_hits_cache dns1 dns2 t1 t2 urlCandidate st parsedUrl records :
  URL_new urlCandidate = Return parsedUrl ->
  wellFormed parsedUrl ->
  isValid (hostname parsedUrl) = false ->
  fst (LRU.get t1 (hostname parsedUrl) (dnsCache st)) = None ->
  resolveHostAddresses dns1 (hostname parsedUrl) = Return records ->
  t2 - (t1 + latency dns1 (hostname parsedUrl)) <= LRU.ttl (dnsCache st) ->
  let first := validateUrl dns1 t1 urlCandidate st in
  let second := validateUrl dns2 t2 urlCandidate (snd first) in
  fst second = fst first
  /\ events (snd second) = events (snd first) ++ [CacheGet (hostname parsedUrl)]
  /\ dnsCache (snd second) = dnsCache (snd first).
Proof.
  intros Hparse Hwell Hname Hmiss Hresolve Hfresh first second.
  unfold second, first.
  rewrite (validateUrl_miss dns1 t1 _ st _ Hparse Hwell Hname Hmiss), Hresolve.
  cbn [fst snd].
  destruct (resolveHostAddresses_nonempty _ _ _ Hresolve) as [Hne _].
  destruct records as [|record rest]; [contradiction|].
  rewrite (validateUrl_hit dns2 t2 _ _ _ record rest (t1 + latency dns1 (hostname parsedUrl))
             Hparse Hwell Hname).
  - cbn [fst snd events dnsCache]. auto.
  - apply set_holds_always.
  - cbn [dnsCache]. rewrite ttl_set, ttl_get. exact Hfresh.
Qed.

(** X3. Cache expiry.  Under the same conditions, a second validation
    made after the time-to-live has elapsed finds the entry stale: it
    asks the resolver again, and its outcome is the one of a
    validation on an emptied cache. *)
Theorem expired_entry_is_resolved_again dns1 dns2 t1 t2 urlCandidate st parsedUrl records :
  URL_new urlCandidate = Return parsedUrl ->
  wellFormed parsedUrl ->
  isValid (hostname parsedUrl) = false ->
  fst (LRU.get t1 (hostname parsedUrl) (dnsCache st)) = None ->
  resolveHostAddresses dns1 (hostname parsedUrl) = Return records ->
  LRU.ttl (dnsCache st) <> 0 ->
  LRU.ttl (dnsCache st) < t2 - (t1 + latency dns1 (hostname parsedUrl)) ->
  let first := validateUrl dns1 t1 urlCandidate st in
  let second := validateUrl dns2 t2 urlCandidate (snd first) in
  fst second = fst (validateUrl dns2 t2 urlCandidate (clearDnsCache (snd first)))
  /\ exists more,
       events (snd second)
       = events (snd first)
         ++ [CacheGet (hostname parsedUrl); Resolve4 (hostname parsedUrl);
             Resolve6 (hostname parsedUrl)] ++ more.
Proof.
  intros Hparse Hwell Hname Hmiss Hresolve Httl Hold first second.
  unfold second, first.
  rewrite (validateUrl_miss dns1 t1 _ st _ Hparse Hwell Hname Hmiss), Hresolve.
  cbn [fst snd].
  set (name := hostname parsedUrl) in *.
  set (st1 := mkState _ _).
  assert (fst (LRU.get t2 name (dnsCache st1)) = None) as Hstale.
  { apply (get_stale t2 name records (t1 + latency dns1 name)).
    - apply set_holds_always.
    - unfold st1. cbn [dnsCache]. rewrite ttl_set, ttl_get. exact Httl.
    - unfold st1. cbn [dnsCache]. rewrite ttl_set, ttl_get. exact Hold. }
  rewrite (validateUrl_miss dns2 t2 _ st1 _ Hparse Hwell Hname Hstale).
  rewrite (validateUrl_miss dns2 t2 _ (clearDnsCache st1) _ Hparse Hwell Hname eq_refl).
  fold name.
  destruct (resolveHostAddresses dns2 name) as [records2|error]; cbn [fst snd events].
  - split; [reflexivity|]. exists [CacheSet name records2].
    rewrite <- app_assoc. reflexivity.
  - split; [reflexivity|]. exists []. reflexivity.
Qed.

Lemma checkRecords_ok parsedUrl hostname records url :
  checkRecords parsedUrl hostname records = Return (Ok url) ->
  url = parsedUrl /\ Forall allowedAddress records.
Proof.
  destruct (first_forbidden records)
    as [Hall | (before & bad & after & -> & Hbefore & Hbad)].
  - rewrite (checkRecords_allowed _ _ _ Hall). intros [= <-]. auto.
  - rewrite (checkRecords_denied _ _ _ _ _ Hbefore Hbad). discriminate.
Qed.

Lemma ok_passes_checks dns now urlCandidate st url :
  fst (validateUrl dns now urlCandidate st) = Return (Ok url) ->
  exists parsedUrl, URL_new urlCandidate = Return parsedUrl /\ wellFormed parsedUrl.
Proof.
  unfold validateUrl, wellFormed.
  destruct (URL_new urlCandidate) as [parsedUrl|error]; [|discriminate].
  intros Hok. exists parsedUrl. split; [reflexivity|].
  destruct (String.eqb (hostname parsedUrl) EmptyString) eqn:Hhost.
  - destruct (negb _ && negb _); discriminate.
  - apply String.eqb_neq in Hhost. split; [|exact Hhost].
    destruct (String.eqb (protocol parsedUrl) "http:") eqn:Hhttp.
    + left. apply String.eqb_eq, Hhttp.
    + destruct (String.eqb (protocol parsedUrl) "https:") eqn:Hhttps.
      * right. apply String.eqb_eq, Hhttps.
      * discriminate.
Qed.

(** X4. What an [Ok] guarantees.  When [validateUrl] allows a
    candidate, the URL it returns is the parsed candidate, its scheme
    is http or https and its hostname is not empty; and either the
    hostname is an IP literal that the classifier allows (and the
    state is untouched), or the cache now holds, as its most recent
    entry, a non-empty list of addresses for the hostname, every one
    of which the classifier allows. *)
Theorem allowed_url_was_checked dns now urlCandidate st url :
  fst (validateUrl dns now urlCandidate st) = Return (Ok url) ->
  URL_new urlCandidate = Return url
  /\ wellFormed url
  /\ ((isValid (hostname url) = true /\ allowedAddress (hostname url)
       /\ snd (validateUrl dns now urlCandidate st) = st)
      \/ (isValid (hostname url) = false
          /\ exists records start,
               records <> [] /\ Forall allowedAddress records
               /\ holds (hostname url) records start
                    (dnsCache (snd (validateUrl dns now urlCandidate st))))).
Proof.
  intros Hok.
  destruct (ok_passes_checks _ _ _ _ _ Hok) as (parsedUrl & Hparse & Hwell).
  rewrite (passes_checks _ _ dns now st Hparse Hwell) in Hok |- *.
  destruct (isValid (hostname parsedUrl)) eqn:Hliteral.
  - destruct (isAddressForbidden_returns (hostname parsedUrl)) as [[|] Hverdict];
      rewrite Hverdict in Hok |- *; cbn [fst snd mbind Completion_bind] in Hok |- *;
      [discriminate|].
    injection Hok as <-. split; [exact Hparse|]. split; [exact Hwell|].
    left. repeat split; assumption.
  - destruct (obtainRecords dns now (hostname parsedUrl) st) as [[reason|stored] st']
      eqn:Hobtain; cbn [fst snd] in Hok |- *; [discriminate|].
    destruct stored as [[|record rest]|]; cbn [fst snd] in Hok |- *; try discriminate.
    apply checkRecords_ok in Hok as [-> Hall].
    split; [exact Hparse|]. split; [exact Hwell|].
    right. split; [exact Hliteral|].
    unfold obtainRecords in Hobtain.
    destruct (LRU.get now (hostname parsedUrl) (dnsCache st)) as [[cached|] cache1] eqn:Hget.
    + injection Hobtain as Hrecords <-. subst cached.
      destruct (get_hit_holds _ _ _ _ _ Hget) as (start & Hholds & _).
      exists (record :: rest), start. split; [discriminate|]. split; assumption.
    + destruct (resolveHostAddresses dns (hostname parsedUrl)) as [resolved|error];
        [|discriminate].
      injection Hobtain as Hrecords <-. subst resolved.
      exists (record :: rest), (now + latency dns (hostname parsedUrl)).
      split; [discriminate|]. split; [assumption|].
      cbn [dnsCache log]. apply set_holds_always.
Qed.

Lemma validateUrl_cacheStep dns now urlCandidate st :
  cacheStep dns now (dnsCache st) (dnsCache (snd (validateUrl dns now urlCandidate st))).
Proof.
  unfold validateUrl.
  destruct (URL_new urlCandidate) as [parsedUrl|error]; [|now apply step_untouched].
  destruct (negb _ && negb _); [now apply step_untouched|].
  destruct (String.eqb _ _); [now apply step_untouched|].
  destruct (isValid _); [now apply step_untouched|].
  destruct (obtainRecords dns now (hostname parsedUrl) st) as [outcome st'] eqn:Hobtain.
  destruct (obtainRecords_step _ _ _ _ _ _ Hobtain) as [Hstep _].
  destruct outcome as [reason|[[|record rest]|]]; exact Hstep.
Qed.

Lemma cacheStep_kept dns now (before after : LRU.Cache (list string)) :
  cacheStep dns now before after ->
  0 < LRU.max before -> wellKept before ->
  wellKept after /\ LRU.max after = LRU.max before /\ LRU.ttl after = LRU.ttl before.
Proof.
  intros [-> | hostname -> | hostname records _ _ ->] Hmax Hkept.
  - auto.
  - split; [apply get_wellKept, Hkept|]. split; [apply max_get | apply ttl_get].
  - split; [|split].
    + apply set_wellKept; [rewrite max_get; exact Hmax | apply get_wellKept, Hkept].
    + rewrite max_set. apply max_get.
    + rewrite ttl_set. apply ttl_get.
Qed.

Lemma reachable_kept st :
  reachable st ->
  wellKept (dnsCache st) /\ LRU.max (dnsCache st) = 1000 /\ LRU.ttl (dnsCache st) = 300000.
Proof.
  induction 1 as [|dns now urlCandidate st _ IH|st _ IH|now hostname st _ IH
                  |dns now hostname records st _ IH Hresolve].
  - split; [split; [constructor | simpl; lia] | split; reflexivity].
  - destruct IH as (Hkept & Hmax & Httl).
    destruct (cacheStep_kept _ _ _ _ (validateUrl_cacheStep dns now urlCandidate st)
                ltac:(lia) Hkept) as (Hkept' & Hmax' & Httl').
    split; [exact Hkept'|]. split; congruence.
  - destruct IH as (_ & Hmax & Httl).
    split; [apply clear_wellKept; simpl; lia | split; assumption].
  - destruct IH as (Hkept & Hmax & Httl). cbn [dnsCache log].
    split; [apply get_wellKept, Hkept|].
    split; [rewrite max_get | rewrite ttl_get]; assumption.
  - destruct IH as (Hkept & Hmax & Httl). cbn [dnsCache log].
    split; [apply set_wellKept; [lia | exact Hkept]|].
    split; [rewrite max_set | rewrite ttl_set]; assumption.
Qed.

(** X5. The DNS cache stays within its bound: in every state that the
    module reaches, [getDnsCacheStats] reports at most [max] = 1000
    entries, no hostname has two entries, and the time-to-live is the
    configured five minutes. *)
Theorem dnsCache_is_bounded st :
  reachable st ->
  Z.of_nat (fst (getDnsCacheStats st)) <= snd (getDnsCacheStats st)
  /\ snd (getDnsCacheStats st) = LRU.max (dnsCache st)
  /\ List.NoDup (map LRU.key (LRU.entries (dnsCache st)))
  /\ LRU.ttl (dnsCache st) = 5 * 60 * 1000.
Proof.
  intros Hreach. destruct (reachable_kept st Hreach) as ([Hnodup Hlen] & Hmax & Httl).
  unfold getDnsCacheStats, LRU.size. cbn [fst snd].
  split; [lia|]. split; [congruence|]. split; [exact Hnodup | rewrite Httl; reflexivity].
Qed.

Lemma validateUrl_reads_cache dns now urlCandidate st st' :
  dnsCache st = dnsCache st' ->
  fst (validateUrl dns now urlCandidate st) = fst (validateUrl dns now urlCandidate st').
Proof.
  intros Hsame. unfold validateUrl.
  destruct (URL_new urlCandidate) as [parsedUrl|error]; [|reflexivity].
  destruct (negb _ && negb _); [reflexivity|].
  destruct (String.eqb _ _); [reflexivity|].
  destruct (isValid _); [reflexivity|].
  unfold obtainRecords. rewrite <- Hsame.
  destruct (LRU.get now (hostname parsedUrl) (dnsCache st)) as [[cached|] cache1].
  - destruct cached; reflexivity.
  - cbn [fst snd]. destruct (resolveHostAddresses dns (hostname parsedUrl)) as [records|error];
      [|reflexivity].
    destruct records; reflexivity.
Qed.

(** X6. [clearDnsCache] forgets every resolution: from any reachable
    state it leaves the cache as it was at start-up (no entry, same
    bound and time-to-live), so every validation that follows gives
    the outcome it would give on the initial state. *)
Theorem clearDnsCache_resets st :
  reachable st ->
  dnsCache (clearDnsCache st) = dnsCache initialState
  /\ fst (getDnsCacheStats (clearDnsCache st)) = 0%nat
  /\ forall dns now urlCandidate,
       fst (validateUrl dns now urlCandidate (clearDnsCache st))
       = fst (validateUrl dns now urlCandidate initialState).
Proof.
  intros Hreach. destruct (reachable_kept st Hreach) as (_ & Hmax & Httl).
  assert (dnsCache (clearDnsCache st) = dnsCache initialState) as Hsame.
  { unfold clearDnsCache, LRU.clear, LRU.with_entries, initialState, LRU.create.
    cbn [dnsCache]. rewrite Hmax, Httl. reflexivity. }
  split; [exact Hsame|]. split; [reflexivity|].
  intros dns now urlCandidate. apply validateUrl_reads_cache, Hsame.
Qed.
End EgressGuardExtras.

(** ** More about the admission limiter *)
Section StoreOfManyKeys.
Context {V : Type}.
Import LRU.
Implicit Types (c : Cache V) (es rest : list (Entry V)) (v : V).

(** A lookup of one key leaves the entries of the other keys alone. *)
Lemma get_other now k k' c :
  k <> k' -> lookup k' (entries (snd (get now k c))) = lookup k' (entries c).
Proof.
  intros Hne. unfold get.
  destruct (lookup k (entries c)) as [e|] eqn:Hl; [|reflexivity].
  apply LRUFacts.lookup_In in Hl as [_ Hkey].
  destruct (isStale c now e); simpl.
  - apply lookup_without_other, Hne.
  - unfold lookup. simpl. rewrite Hkey.
    replace (String.eqb k k') with false by (symmetry; apply String.eqb_neq; exact Hne).
    apply (lookup_without_other _ _ _ Hne).
Qed.

(** So does a store, unless it has to evict: the key is new and the
    cache is full. *)
Lemma set_other now k k' v c :
  k <> k' ->
  lookup k (entries c) <> None \/ Z.of_nat (length (entries c)) < max c ->
  lookup k' (entries (set now k v c)) = lookup k' (entries c).
Proof.
  intros Hne Hroom. unfold set.
  destruct (lookup k (entries c)) as [e|] eqn:Hl; simpl.
  - unfold lookup. simpl.
    replace (String.eqb k k') with false by (symmetry; apply String.eqb_neq; exact Hne).
    apply (lookup_without_other _ _ _ Hne).
  - destruct Hroom as [Hsome | Hroom]; [contradiction|].
    replace (max c <=? Z.of_nat (length (entries c))) with false
      by (symmetry; apply Z.leb_gt; exact Hroom).
    unfold lookup. simpl.
    replace (String.eqb k k') with false by (symmetry; apply String.eqb_neq; exact Hne).
    reflexivity.
Qed.

Lemma set_same now k v c :
  lookup k (entries (set now k v c)) = Some (mkEntry k v now).
Proof.
  unfold set. destruct (lookup k (entries c)); simpl; apply lookup_head.
Qed.

(** The three ways in which a lookup of [k] can go. *)
Lemma get_cases now k c :
  (lookup k (entries c) = None /\ get now k c = (None, c))
  \/ (exists e, lookup k (entries c) = Some e /\ key e = k
                /\ ttl c <> 0 /\ ttl c < now - start e
                /\ get now k c = (None, with_entries c (without k (entries c)))
                /\ lookup k (entries (snd (get now k c))) = None)
  \/ (exists e, lookup k (entries c) = Some e /\ key e = k
                /\ (ttl c = 0 \/ now - start e <= ttl c)
                /\ get now k c = (Some (value e), with_entries c (e :: without k (entries c)))
                /\ lookup k (entries (snd (get now k c))) = Some e).
Proof.
  unfold get, isStale.
  destruct (lookup k (entries c)) as [e|] eqn:Hl; [|left; auto].
  right. pose proof (LRUFacts.lookup_In _ _ _ Hl) as [_ Hkey].
  destruct (Z.eqb_spec (ttl c) 0) as [Hzero | Hnonzero]; cbn [negb andb].
  - right. exists e. repeat split; auto. simpl. unfold lookup. simpl.
    rewrite Hkey, String.eqb_refl. reflexivity.
  - destruct (Z.ltb_spec (ttl c) (now - start e)) as [Hold | Hlive].
    + left. exists e. repeat split; auto. simpl. apply lookup_without_same.
    + right. exists e. repeat split; auto. simpl. unfold lookup. simpl.
      rewrite Hkey, String.eqb_refl. reflexivity.
Qed.

Lemma keys_get now k c x :
  In x (map key (entries (snd (get now k c)))) -> In x (map key (entries c)).
Proof.
  unfold get. destruct (lookup k (entries c)) as [e|] eqn:Hl; [|trivial].
  apply LRUFacts.lookup_In in Hl as [Hin _].
  assert (forall y, In y (map key (without k (entries c))) -> In y (map key (entries c)))
    as Hsub.
  { intros y Hy. apply in_map_iff in Hy as (e' & <- & He').
    apply in_map. unfold without in He'. apply filter_In in He'. tauto. }
  destruct (isStale c now e); simpl; [apply Hsub|].
  intros [<- | Hx]; [apply in_map, Hin | apply Hsub, Hx].
Qed.

Lemma In_removelast es (e : Entry V) : In e (removelast es) -> In e es.
Proof.
  induction es as [|e' es IH]; simpl; [trivial|].
  destruct es as [|e'' es']; [intros []|].
  intros [<- | Hin]; [left; reflexivity | right; apply IH, Hin].
Qed.

Lemma keys_set now k v c x :
  In x (map key (entries (set now k v c))) -> x = k \/ In x (map key (entries c)).
Proof.
  unfold set. destruct (lookup k (entries c)) as [e|]; simpl.
  - intros [<- | Hx]; [left; reflexivity|]. right.
    apply in_map_iff in Hx as (e' & <- & He'). apply in_map.
    unfold without in He'. apply filter_In in He'. tauto.
  - intros [<- | Hx]; [left; reflexivity|]. right.
    destruct (max c <=? Z.of_nat (length (entries c))); [|exact Hx].
    apply in_map_iff in Hx as (e' & <- & He'). apply in_map.
    apply In_removelast, He'.
Qed.
End StoreOfManyKeys.

Section AdmissionLimiterExtras.
Variables maxRequests windowMs : Z.

(** The two outcomes of one request, with the store that each leaves. *)
Lemma rateLimiter_cases remoteAddress now st :
  let ip := getClientIp remoteAddress in
  let stored := fst (LRU.get now ip (rateLimitStore st)) in
  let store1 := snd (LRU.get now ip (rateLimitStore st)) in
  let timestamps := inWindow windowMs now stored in
  (maxRequests <= Z.of_nat (length timestamps)
   /\ fst (rateLimiter maxRequests windowMs remoteAddress now st)
      = TooManyRequests (ceilDiv (Math_min timestamps) (windowMs - now) 1000)
   /\ rateLimitStore (snd (rateLimiter maxRequests windowMs remoteAddress now st)) = store1)
  \/ (Z.of_nat (length timestamps) < maxRequests
      /\ fst (rateLimiter maxRequests windowMs remoteAddress now st) = Next
      /\ rateLimitStore (snd (rateLimiter maxRequests windowMs remoteAddress now st))
         = LRU.set now ip (timestamps ++ [now]) store1).
Proof.
  intros ip stored store1 timestamps.
  destruct (Z.le_gt_cases maxRequests (Z.of_nat (length timestamps))) as [Hfull | Hunder].
  - left. rewrite (rateLimiter_denies maxRequests windowMs remoteAddress now st Hfull). auto.
  - right. rewrite (rateLimiter_admits maxRequests windowMs remoteAddress now st Hunder). auto.
Qed.

Lemma rateLimiter_keeps_limit remoteAddress now st :
  LRU.all_entries (withinLimit maxRequests) (rateLimitStore st) ->
  LRU.all_entries (withinLimit maxRequests)
    (rateLimitStore (snd (rateLimiter maxRequests windowMs remoteAddress now st))).
Proof.
  intros Hall.
  pose proof (LRUFacts.get_all_entries _ now (getClientIp remoteAddress) _ Hall) as Hget.
  destruct (rateLimiter_cases remoteAddress now st) as [(_ & _ & ->) | (Hunder & _ & ->)].
  - exact Hget.
  - apply LRUFacts.set_all_entries; [|exact Hget].
    unfold withinLimit. rewrite length_app. simpl. lia.
Qed.

Lemma rateLimiter_keeps_store remoteAddress now st :
  0 < LRU.max (rateLimitStore st) -> wellKept (rateLimitStore st) ->
  let store' := rateLimitStore (snd (rateLimiter maxRequests windowMs remoteAddress now st)) in
  wellKept store'
  /\ LRU.max store' = LRU.max (rateLimitStore st)
  /\ LRU.ttl store' = LRU.ttl (rateLimitStore st).
Proof.
  intros Hmax Hkept store'. unfold store'.
  destruct (rateLimiter_cases remoteAddress now st) as [(_ & _ & ->) | (_ & _ & ->)].
  - split; [apply get_wellKept, Hkept|]. split; [apply max_get | apply ttl_get].
  - split; [apply set_wellKept; [rewrite max_get; exact Hmax | apply get_wellKept, Hkept]|].
    split; [rewrite max_set; apply max_get | rewrite ttl_set; apply ttl_get].
Qed.

Lemma reachableLimiter_invariant st :
  reachableLimiter maxRequests windowMs st ->
  LRU.all_entries (withinLimit maxRequests) (rateLimitStore st)
  /\ wellKept (rateLimitStore st)
  /\ LRU.max (rateLimitStore st) = 10000
  /\ LRU.ttl (rateLimitStore st) = windowMs.
Proof.
  induction 1 as [|remoteAddress now st _ IH|st _ IH].
  - split; [constructor|]. split; [split; [constructor | simpl; lia]|]. split; reflexivity.
  - destruct IH as (Hlimit & Hkept & Hmax & Httl).
    destruct (rateLimiter_keeps_store remoteAddress now st ltac:(lia) Hkept)
      as (Hkept' & Hmax' & Httl').
    split; [apply rateLimiter_keeps_limit, Hlimit|].
    split; [exact Hkept'|]. split; congruence.
  - destruct IH as (_ & _ & Hmax & Httl).
    split; [constructor|]. split; [apply clear_wellKept; simpl; lia|]. split; assumption.
Qed.

(** X7. The limiter's memory is bounded: in every state that the
    module reaches, the store tracks at most 10000 identities, each
    once, and the timestamp list of every identity has at least one
    and at most [maxRequests] entries. *)
Theorem rateLimitStore_is_bounded st :
  reachableLimiter maxRequests windowMs st ->
  Z.of_nat (fst (getRateLimitStats st)) <= snd (getRateLimitStats st)
  /\ List.NoDup (map LRU.key (LRU.entries (rateLimitStore st)))
  /\ Forall (fun e => 1 <= Z.of_nat (length (LRU.value e)) <= maxRequests)
       (LRU.entries (rateLimitStore st)).
Proof.
  intros Hreach.
  destruct (reachableLimiter_invariant st Hreach) as (Hlimit & [Hnodup Hlen] & Hmax & _).
  unfold getRateLimitStats, LRU.size. cbn [fst snd].
  split; [lia|]. split; [exact Hnodup | exact Hlimit].
Qed.

Lemma filter_all_kept (f : Z -> bool) (l : list Z) :
  (length l <= length (List.filter f l))%nat -> List.filter f l = l.
Proof.
  intros Hlen. apply forallb_filter_id, filter_length_forallb.
  pose proof (List.filter_length_le f l). lia.
Qed.

(** X8. A denial has nothing to trim: in a reachable state with a
    positive limit, a request is denied only when the identity has a
    live entry all of whose timestamps are inside the window, exactly
    [maxRequests] of them; the list that a write would persist is the
    list already stored. *)
Theorem denial_trims_nothing remoteAddress now st retryAfter :
  reachableLimiter maxRequests windowMs st ->
  0 < maxRequests ->
  fst (rateLimiter maxRequests windowMs remoteAddress now st) = TooManyRequests retryAfter ->
  exists timestamps,
    fst (LRU.get now (getClientIp remoteAddress) (rateLimitStore st)) = Some timestamps
    /\ inWindow windowMs now (Some timestamps) = timestamps
    /\ Z.of_nat (length timestamps) = maxRequests.
Proof.
  intros Hreach Hmax Hdenied.
  destruct (reachableLimiter_invariant st Hreach) as (Hlimit & _).
  destruct (rateLimiter_cases remoteAddress now st) as [(Hfull & _ & _) | (_ & Hnext & _)];
    [|congruence].
  destruct (LRU.get now (getClientIp remoteAddress) (rateLimitStore st))
    as [[timestamps|] store1] eqn:Hget; cbn [fst] in *; [|simpl in Hfull; lia].
  pose proof (LRUFacts.get_hit _ _ _ _ _ _ Hlimit Hget) as [_ Hupper].
  pose proof (inWindow_length windowMs now timestamps) as Hshort.
  exists timestamps. split; [reflexivity|].
  assert (inWindow windowMs now (Some timestamps) = timestamps) as Hsame.
  { unfold inWindow in *. simpl in *. apply filter_all_kept. lia. }
  split; [exact Hsame|]. rewrite Hsame in Hfull. lia.
Qed.

Lemma filter_drops (f : Z -> bool) (l : list Z) (x : Z) :
  In x l -> f x = false -> (length (List.filter f l) < length l)%nat.
Proof.
  induction l as [|y l IH]; simpl; [intros []|].
  intros [-> | Hin] Hx.
  - rewrite Hx. pose proof (List.filter_length_le f l). lia.
  - specialize (IH Hin Hx). destruct (f y); simpl; lia.
Qed.

(** X9. The retry hint is honest: when a request is denied in a
    reachable state with the hint [retryAfter] seconds, the next
    request of the same client, made at least that many seconds later,
    is admitted. *)
Theorem retry_hint_is_honest remoteAddress now later st retryAfter :
  reachableLimiter maxRequests windowMs st ->
  fst (rateLimiter maxRequests windowMs remoteAddress now st)
    = TooManyRequests (Num retryAfter) ->
  now + 1000 * retryAfter <= later ->
  fst (rateLimiter maxRequests windowMs remoteAddress later
         (snd (rateLimiter maxRequests windowMs remoteAddress now st))) = Next.
Proof.
  intros Hreach Hdenied Hlater.
  destruct (reachableLimiter_invariant st Hreach) as (Hlimit & _).
  set (ip := getClientIp remoteAddress) in *.
  destruct (rateLimiter_cases remoteAddress now st)
    as [(Hfull & Hverdict & Hstore) | (_ & Hnext & _)]; [|congruence].
  fold ip in Hfull, Hverdict, Hstore.
  rewrite Hverdict in Hdenied. injection Hdenied as Hhint.
  destruct (LRU.get now ip (rateLimitStore st)) as [[timestamps|] store1] eqn:Hget;
    cbn [fst snd] in *; [|discriminate].
  pose proof (LRUFacts.get_hit _ _ _ _ _ _ Hlimit Hget) as [Hlower Hupper].
  destruct (get_hit_holds _ _ _ _ _ Hget) as (start & Hholds & _).
  set (trimmed := inWindow windowMs now (Some timestamps)) in *.
  pose proof (Math_min_spec trimmed) as Hmin.
  destruct (Math_min trimmed) as [oldest|]; [|discriminate].
  destruct Hmin as [Hin _].
  destruct (ceilDiv_spec oldest (windowMs - now)) as (q & Hq & Hceil).
  assert (q = retryAfter) as -> by congruence.
  unfold isCeiling in Hceil.
  assert (In oldest timestamps) as Hstored.
  { unfold trimmed, inWindow in Hin. simpl in Hin. apply filter_In in Hin. tauto. }
  rewrite rateLimiter_admits; [reflexivity|].
  rewrite Hstore. fold ip.
  destruct Hholds as (rest & Hentries & Hrest).
  unfold LRU.get. rewrite Hentries, lookup_head.
  destruct (LRU.isStale _ _ _); cbn [fst].
  - unfold inWindow. simpl. lia.
  - unfold inWindow. simpl.
    pose proof (filter_drops (fun t => later - windowMs <? t) timestamps oldest Hstored
                  ltac:(apply Z.ltb_ge; lia)) as Hfewer.
    lia.
Qed.

(** X10. Identities are isolated.  In a reachable state, as long as
    the store need not evict (the client is already tracked, or fewer
    than 10000 identities are), a request of one client leaves the
    entry of every other client as it was, and with it the verdict of
    that client's next request. *)
Theorem other_identities_are_untouched remoteAddress other now later st :
  reachableLimiter maxRequests windowMs st ->
  getClientIp remoteAddress <> getClientIp other ->
  LRU.lookup (getClientIp remoteAddress) (LRU.entries (rateLimitStore st)) <> None
    \/ Z.of_nat (fst (getRateLimitStats st)) < snd (getRateLimitStats st) ->
  let st' := snd (rateLimiter maxRequests windowMs remoteAddress now st) in
  LRU.lookup (getClientIp other) (LRU.entries (rateLimitStore st'))
    = LRU.lookup (getClientIp other) (LRU.entries (rateLimitStore st))
  /\ fst (rateLimiter maxRequests windowMs other later st')
     = fst (rateLimiter maxRequests windowMs other later st).
Proof.
  intros Hreach Hne Hroom st'.
  destruct (reachableLimiter_invariant st Hreach) as (_ & [_ Hfits] & Hmax & _).
  unfold getRateLimitStats, LRU.size in Hroom. cbn [fst snd] in Hroom.
  set (ip := getClientIp remoteAddress) in *. set (ip' := getClientIp other) in *.
  assert (LRU.lookup ip' (LRU.entries (rateLimitStore st'))
          = LRU.lookup ip' (LRU.entries (rateLimitStore st))
          /\ LRU.ttl (rateLimitStore st') = LRU.ttl (rateLimitStore st)) as [Hentry Httl].
  { unfold st'.
    destruct (rateLimiter_cases remoteAddress now st) as [(_ & _ & ->) | (_ & _ & ->)];
      fold ip.
    - split; [apply get_other, Hne | apply ttl_get].
    - split; [|rewrite ttl_set; apply ttl_get].
      rewrite set_other; [apply get_other, Hne | exact Hne |].
      rewrite max_get.
      destruct (get_cases now ip (rateLimitStore st))
        as [(Habsent & Hget) | [(e & Hl & _ & _ & _ & Hget & _) | (e & _ & _ & _ & _ & Hkept)]].
      + rewrite Hget. cbn [snd]. destruct Hroom as [Hsome | Hroom]; [contradiction|].
        right. lia.
      + right. pose proof (length_without_present ip _ _ Hl) as Hshort.
        rewrite Hget. simpl. lia.
      + left. rewrite Hkept. discriminate. }
  split; [exact Hentry|].
  unfold rateLimiter. fold ip'.
  pose proof (get_fst_ext later ip' _ _ Hentry Httl) as Hread.
  destruct (LRU.get later ip' (rateLimitStore st')) as [stored' store1'].
  destruct (LRU.get later ip' (rateLimitStore st)) as [stored store1].
  cbn [fst] in Hread. subst stored'.
  destruct (maxRequests <=? Z.of_nat (length (inWindow windowMs later stored))); reflexivity.
Qed.
End AdmissionLimiterExtras.

(** *** No window holds more than [maxRequests] admitted requests *)
Section WindowGuarantee.
Variables maxRequests windowMs : Z.
Hypothesis window_positive : 0 < windowMs.

Lemma filter_narrower (f g : Z -> bool) (l : list Z) :
  (forall x, In x l -> f x = true -> g x = true) ->
  List.filter f (List.filter g l) = List.filter f l.
Proof.
  induction l as [|x l IH]; simpl; intros Himp; [reflexivity|].
  assert (forall y, In y l -> f y = true -> g y = true) as Htail by auto.
  destruct (g x) eqn:Hg; simpl.
  - destruct (f x); [f_equal|]; apply IH, Htail.
  - destruct (f x) eqn:Hf; [|apply IH, Htail].
    rewrite (Himp x (or_introl eq_refl) Hf) in Hg. discriminate.
Qed.

Lemma filter_fewer (f g : Z -> bool) (l : list Z) :
  (forall x, In x l -> f x = true -> g x = true) ->
  (length (List.filter f l) <= length (List.filter g l))%nat.
Proof.
  intros Himp. rewrite <- (filter_narrower f g l Himp). apply List.filter_length_le.
Qed.

Lemma recent_later now now' l :
  now <= now' -> recent windowMs now' (recent windowMs now l) = recent windowMs now' l.
Proof.
  intros Hle. apply filter_narrower. intros x _ Hx.
  apply Z.ltb_lt in Hx. apply Z.ltb_lt. lia.
Qed.

Lemma recent_same now l : recent windowMs now (recent windowMs now l) = recent windowMs now l.
Proof. apply recent_later. lia. Qed.

Lemma recent_old now l bound :
  Forall (fun t => t <= bound) l -> bound <= now - windowMs -> recent windowMs now l = [].
Proof.
  intros Hall Hbound. unfold recent. induction Hall as [|x l Hx _ IH]; simpl; [reflexivity|].
  replace (now - windowMs <? x) with false by (symmetry; apply Z.ltb_ge; lia). exact IH.
Qed.

Lemma recent_snoc now l : recent windowMs now (l ++ [now]) = recent windowMs now l ++ [now].
Proof.
  unfold recent. rewrite List.filter_app. simpl.
  replace (now - windowMs <? now) with true by (symmetry; apply Z.ltb_lt; lia). reflexivity.
Qed.

Lemma tracks_later ip past now now' c :
  now <= now' -> tracks windowMs ip past now c -> tracks windowMs ip past now' c.
Proof.
  unfold tracks. intros Hle.
  destruct (LRU.lookup ip (LRU.entries c)) as [e|].
  - intros (Hsame & Hbefore & Hstart). split; [|split; [exact Hbefore | lia]].
    rewrite <- (recent_later now now' past Hle), Hsame. apply recent_later, Hle.
  - intros Hnone. rewrite <- (recent_later now now' past Hle), Hnone. reflexivity.
Qed.

(** What the handler reads for [ip] at [now'] is the recent part of
    the admitted times, and the lookup keeps the store in step. *)
Lemma tracks_get ip past now now' c :
  now <= now' -> LRU.ttl c = windowMs -> tracks windowMs ip past now c ->
  inWindow windowMs now' (fst (LRU.get now' ip c)) = recent windowMs now' past
  /\ tracks windowMs ip past now' (snd (LRU.get now' ip c)).
Proof.
  intros Hle Httl Htracks.
  pose proof (tracks_later ip past now now' c Hle Htracks) as Hnow.
  unfold tracks in Hnow |- *.
  destruct (get_cases now' ip c)
    as [(Habsent & ->) | [(e & Hl & _ & _ & Hold & -> & Hgone) | (e & Hl & _ & _ & -> & Hkept)]].
  - rewrite Habsent in Hnow. cbn [fst snd]. rewrite Habsent. split; [|exact Hnow].
    rewrite Hnow. reflexivity.
  - rewrite Hl in Hnow. destruct Hnow as (Hsame & Hbefore & _).
    assert (recent windowMs now' past = []) as Hempty.
    { rewrite Hsame. apply (recent_old _ _ (LRU.start e) Hbefore). lia. }
    cbn [fst snd] in *. rewrite Hgone. split; [|exact Hempty].
    rewrite Hempty. reflexivity.
  - rewrite Hl in Hnow. cbn [fst snd] in *. rewrite Hkept. split; [|exact Hnow].
    destruct Hnow as (Hsame & _). rewrite Hsame. reflexivity.
Qed.

(** With no more identities than the store can track, a store of a
    new key evicts nothing. *)
Lemma room_for_identity (known : list string) ip (c : LRU.Cache (list Z)) :
  Z.of_nat (length (nodup String.string_dec known)) <= 10000 ->
  wellKept c -> LRU.max c = 10000 ->
  incl (map LRU.key (LRU.entries c)) known -> In ip known ->
  LRU.lookup ip (LRU.entries c) <> None
  \/ Z.of_nat (length (LRU.entries c)) < LRU.max c.
Proof.
  intros Hknown [Hnodup _] Hmax Hkeys Hip.
  destruct (LRU.lookup ip (LRU.entries c)) as [e|] eqn:Hl; [left; discriminate | right].
  pose proof (lookup_absent_keys _ _ Hl) as Hfresh.
  assert (List.NoDup (ip :: map LRU.key (LRU.entries c))) as Hdistinct
    by (apply List.NoDup_cons_iff; split; assumption).
  assert (incl (ip :: map LRU.key (LRU.entries c)) (nodup String.string_dec known)) as Hincl.
  { intros x [<- | Hx]; apply nodup_In; [exact Hip | apply Hkeys, Hx]. }
  pose proof (NoDup_incl_length Hdistinct Hincl) as Hlen.
  simpl in Hlen. rewrite length_map in Hlen. lia.
Qed.

Lemma window_count_step t past now :
  Forall (fun x => x <= now) past ->
  Z.of_nat (length (recent windowMs now past)) < maxRequests ->
  Z.of_nat (length (List.filter (inWindowAt windowMs t) past)) <= maxRequests ->
  Z.of_nat (length (List.filter (inWindowAt windowMs t) (past ++ [now]))) <= maxRequests.
Proof.
  intros Hbefore Hrecent Hcount. rewrite List.filter_app, length_app. simpl.
  destruct (inWindowAt windowMs t now) eqn:Hin; simpl; [|lia].
  unfold inWindowAt in Hin. apply andb_true_iff in Hin as [Hlow Hhigh].
  apply Z.ltb_lt in Hlow. apply Z.leb_le in Hhigh.
  assert (length (List.filter (inWindowAt windowMs t) past)
          <= length (recent windowMs now past))%nat as Hfewer.
  { apply filter_fewer. intros x _ Hx. unfold inWindowAt in Hx.
    apply andb_true_iff in Hx as [Hx _]. apply Z.ltb_lt in Hx. apply Z.ltb_lt. lia. }
  lia.
Qed.

(** One request keeps the store in step with the admitted times of
    [ip], and admits only below the limit. *)
Lemma request_step (known : list string) ip past now remoteAddress now' st :
  let v := fst (rateLimiter maxRequests windowMs remoteAddress now' st) in
  let st1 := snd (rateLimiter maxRequests windowMs remoteAddress now' st) in
  let past' := if String.eqb (getClientIp remoteAddress) ip && isNext v
               then past ++ [now'] else past in
  Z.of_nat (length (nodup String.string_dec known)) <= 10000 ->
  now <= now' -> In (getClientIp remoteAddress) known ->
  tracks windowMs ip past now (rateLimitStore st) ->
  wellKept (rateLimitStore st) -> LRU.max (rateLimitStore st) = 10000 ->
  LRU.ttl (rateLimitStore st) = windowMs ->
  incl (map LRU.key (LRU.entries (rateLimitStore st))) known ->
  Forall (fun x => x <= now) past ->
  tracks windowMs ip past' now' (rateLimitStore st1)
  /\ wellKept (rateLimitStore st1) /\ LRU.max (rateLimitStore st1) = 10000
  /\ LRU.ttl (rateLimitStore st1) = windowMs
  /\ incl (map LRU.key (LRU.entries (rateLimitStore st1))) known
  /\ Forall (fun x => x <= now') past'
  /\ (past' = past
      \/ (past' = past ++ [now']
          /\ Z.of_nat (length (recent windowMs now' past)) < maxRequests)).
Proof.
  intros v st1 past' Hknown Hle Hip Htracks Hkept Hmax Httl Hkeys Hbefore.
  set (ip' := getClientIp remoteAddress) in *.
  destruct (rateLimiter_keeps_store maxRequests windowMs remoteAddress now' st
              ltac:(lia) Hkept) as (Hkept1 & Hmax1 & Httl1).
  fold st1 in Hkept1, Hmax1, Httl1.
  pose proof (get_wellKept now' ip' _ Hkept) as Hkept_get.
  assert (incl (map LRU.key (LRU.entries (snd (LRU.get now' ip' (rateLimitStore st))))) known)
    as Hkeys_get by (intros x Hx; apply Hkeys, (keys_get _ _ _ _ Hx)).
  pose proof (room_for_identity known ip' _ Hknown Hkept_get
                ltac:(rewrite max_get; exact Hmax) Hkeys_get Hip) as Hroom.
  assert (Forall (fun x => x <= now') past) as Hbefore'
    by (eapply List.Forall_impl; [|exact Hbefore]; intros x Hx; simpl in *; lia).
  assert (incl (map LRU.key (LRU.entries (rateLimitStore st1))) known) as Hkeys1.
  { unfold st1.
    destruct (rateLimiter_cases maxRequests windowMs remoteAddress now' st)
      as [(_ & _ & ->) | (_ & _ & ->)]; [exact Hkeys_get|].
    intros x Hx. apply keys_set in Hx as [-> | Hx]; [exact Hip | apply Hkeys_get, Hx]. }
  split; [|split; [exact Hkept1|]; split; [congruence|]; split; [congruence|];
           split; [exact Hkeys1|]].
  - (* the store stays in step *)
    destruct (String.eqb_spec ip' ip) as [Hsame | Hother].
    + subst ip. destruct (tracks_get ip' past now now' _ Hle Httl Htracks)
        as [Hread Hget].
      unfold past', v, st1.
      destruct (rateLimiter_cases maxRequests windowMs remoteAddress now' st)
        as [(_ & -> & ->) | (_ & -> & ->)]; fold ip'; cbn [isNext andb].
      * exact Hget.
      * unfold tracks. rewrite set_same. cbn [LRU.value LRU.start].
        rewrite Hread. rewrite !recent_snoc, recent_same.
        split; [reflexivity|]. split; [|lia].
        apply Forall_app. split; [|constructor; [lia | constructor]].
        apply List.Forall_forall. intros x Hx. unfold recent in Hx.
        apply filter_In in Hx as [Hx _].
        rewrite List.Forall_forall in Hbefore'. apply Hbefore', Hx.
    + assert (past' = past) as -> by (unfold past'; cbn [andb]; reflexivity).
      assert (LRU.lookup ip (LRU.entries (rateLimitStore st1))
              = LRU.lookup ip (LRU.entries (rateLimitStore st))) as Hentry.
      { unfold st1.
        destruct (rateLimiter_cases maxRequests windowMs remoteAddress now' st)
          as [(_ & _ & ->) | (_ & _ & ->)]; fold ip'.
        - apply get_other, Hother.
        - rewrite set_other; [apply get_other, Hother | exact Hother | exact Hroom]. }
      pose proof (tracks_later ip past now now' _ Hle Htracks) as Hnow.
      unfold tracks in Hnow |- *. rewrite Hentry. exact Hnow.
  - (* the admitted times *)
    unfold past', v.
    destruct (String.eqb_spec ip' ip) as [Hsame | Hother]; cbn [andb]; [|auto].
    subst ip. destruct (tracks_get ip' past now now' _ Hle Httl Htracks)
      as [Hread _].
    destruct (rateLimiter_cases maxRequests windowMs remoteAddress now' st)
      as [(_ & -> & _) | (Hunder & -> & _)]; cbn [isNext]; [auto|].
    split; [|right; split; [reflexivity | rewrite <- Hread; exact Hunder]].
    apply Forall_app. split; [exact Hbefore' | constructor; [lia | constructor]].
Qed.

Lemma handleAll_cons remoteAddress now later st :
  handleAll maxRequests windowMs ((remoteAddress, now) :: later) st =
    (fst (rateLimiter maxRequests windowMs remoteAddress now st)
       :: fst (handleAll maxRequests windowMs later
                 (snd (rateLimiter maxRequests windowMs remoteAddress now st))),
     snd (handleAll maxRequests windowMs later
            (snd (rateLimiter maxRequests windowMs remoteAddress now st)))).
Proof.
  cbn [handleAll]. destruct (rateLimiter maxRequests windowMs remoteAddress now st) as [v st1].
  cbn [fst snd]. destruct (handleAll maxRequests windowMs later st1) as [vs st2].
  reflexivity.
Qed.

Lemma guarantee_from (known : list string) ip t :
  Z.of_nat (length (nodup String.string_dec known)) <= 10000 ->
  forall requests st past now,
    tracks windowMs ip past now (rateLimitStore st) ->
    wellKept (rateLimitStore st) -> LRU.max (rateLimitStore st) = 10000 ->
    LRU.ttl (rateLimitStore st) = windowMs ->
    incl (map LRU.key (LRU.entries (rateLimitStore st))) known ->
    Forall (fun x => x <= now) past ->
    nondecreasing now (map snd requests) ->
    incl (identities requests) known ->
    Z.of_nat (length (List.filter (inWindowAt windowMs t) past)) <= maxRequests ->
    Z.of_nat (length (List.filter (inWindowAt windowMs t)
                        (past ++ admittedTimes ip requests
                                   (fst (handleAll maxRequests windowMs requests st)))))
    <= maxRequests.
Proof.
  intros Hknown. induction requests as [|[remoteAddress now'] requests IH];
    intros st past now Htracks Hkept Hmax Httl Hkeys Hbefore Htimes Hids Hcount.
  - simpl. rewrite app_nil_r. exact Hcount.
  - rewrite handleAll_cons. cbn [fst admittedTimes].
    destruct Htimes as [Hle Htimes]. fold (map snd requests) in Htimes.
    assert (In (getClientIp remoteAddress) known) as Hip
      by (apply Hids; left; reflexivity).
    assert (incl (identities requests) known) as Hids'
      by (intros x Hx; apply Hids; right; exact Hx).
    destruct (request_step known ip past now remoteAddress now' st
                Hknown Hle Hip Htracks Hkept Hmax Httl Hkeys Hbefore)
      as (Htracks1 & Hkept1 & Hmax1 & Httl1 & Hkeys1 & Hbefore1 & Hpast).
    set (v := fst (rateLimiter maxRequests windowMs remoteAddress now' st)) in *.
    set (st1 := snd (rateLimiter maxRequests windowMs remoteAddress now' st)) in *.
    destruct (String.eqb (getClientIp remoteAddress) ip && isNext v).
    + destruct Hpast as [Hsame | [_ Hunder]].
      { exfalso. apply (f_equal (@length Z)) in Hsame.
        rewrite length_app in Hsame. simpl in Hsame. lia. }
      replace (past ++ now' :: admittedTimes ip requests
                          (fst (handleAll maxRequests windowMs requests st1)))
        with ((past ++ [now']) ++ admittedTimes ip requests
                          (fst (handleAll maxRequests windowMs requests st1)))
        by (rewrite <- app_assoc; reflexivity).
      apply (IH st1 (past ++ [now']) now'); try assumption.
      apply window_count_step; try assumption.
      eapply List.Forall_impl; [|exact Hbefore]. intros x Hx. simpl in *. lia.
    + apply (IH st1 past now'); assumption.
Qed.

(** X11. The guarantee of the limiter.  Let requests of any clients
    arrive in the order of a clock that does not go back, from
    start-up, with at most 10000 distinct identities among them.  Then
    for every identity and every instant [t], at most [maxRequests] of
    the identity's admitted requests fall in the window of length
    [windowMs] that ends at [t]. *)
Theorem at_most_maxRequests_per_window requests from ip t :
  0 <= maxRequests ->
  nondecreasing from (map snd requests) ->
  Z.of_nat (length (nodup String.string_dec (identities requests))) <= 10000 ->
  Z.of_nat (length (List.filter (inWindowAt windowMs t)
                      (admittedTimes ip requests
                         (fst (handleAll maxRequests windowMs requests
                                 (initialLimiter windowMs))))))
  <= maxRequests.
Proof.
  intros Hmax Htimes Hknown.
  apply (guarantee_from (identities requests) ip t Hknown requests
           (initialLimiter windowMs) [] from).
  - reflexivity.
  - split; [constructor | simpl; lia].
  - reflexivity.
  - reflexivity.
  - intros x [].
  - constructor.
  - exact Htimes.
  - intros x Hx. exact Hx.
  - simpl. exact Hmax.
Qed.
End WindowGuarantee.

(** ** The further properties on examples *)

Lemma serve_reachable maxRequests windowMs remoteAddress times st :
  reachableLimiter maxRequests windowMs st ->
  reachableLimiter maxRequests windowMs
    (snd (serve maxRequests windowMs remoteAddress times st)).
Proof.
  revert st. induction times as [|now later IH]; intros st Hreach; [exact Hreach|].
  rewrite serve_cons. cbn [snd]. apply IH, limiter_request, Hreach.
Qed.

Lemma exhaustedLimiter_reachable : reachableLimiter 5 60000 exhaustedLimiter.
Proof. apply serve_reachable, limiter_initial. Qed.

Section FurtherExamples.
#[local] Existing Instance Reference.ipaddr.
#[local] Existing Instance Reference.urlParser.
Local Open Scope string_scope.

Lemma second_validation_hits_cache_witness :
  fst (validateUrl silentResolver 1000 "https://example.com/article" warmState)
    = fst (validateUrl exampleResolver 0 "https://example.com/article" initialState)
  /\ events (snd (validateUrl silentResolver 1000 "https://example.com/article" warmState))
     = (events warmState ++ [CacheGet "example.com"])%list
  /\ dnsCache (snd (validateUrl silentResolver 1000 "https://example.com/article" warmState))
     = dnsCache warmState.
Proof.
  apply (second_validation_hits_cache exampleResolver silentResolver 0 1000
           "https://example.com/article" initialState
           (mkURL "https:" "example.com" "https://example.com/article")
           ["93.184.216.34"; "2606:2800:220:1:248:1893:25c8:1946"]).
  - reflexivity.
  - split; [right; reflexivity | discriminate].
  - vm_compute. reflexivity.
  - reflexivity.
  - reflexivity.
  - vm_compute. discriminate.
Defined.

Lemma expired_entry_is_resolved_again_witness :
  fst (validateUrl silentResolver 400000 "https://example.com/article" warmState)
    = fst (validateUrl silentResolver 400000 "https://example.com/article"
             (clearDnsCache warmState))
  /\ exists more,
       events (snd (validateUrl silentResolver 400000 "https://example.com/article" warmState))
       = (events warmState
          ++ [CacheGet "example.com"; Resolve4 "example.com"; Resolve6 "example.com"]
          ++ more)%list.
Proof.
  apply (expired_entry_is_resolved_again exampleResolver silentResolver 0 400000
           "https://example.com/article" initialState
           (mkURL "https:" "example.com" "https://example.com/article")
           ["93.184.216.34"; "2606:2800:220:1:248:1893:25c8:1946"]).
  - reflexivity.
  - split; [right; reflexivity | discriminate].
  - vm_compute. reflexivity.
  - reflexivity.
  - reflexivity.
  - vm_compute. discriminate.
  - vm_compute. reflexivity.
Defined.

Example expired_entry_is_denied_by_silent_resolver :
  fst (validateUrl silentResolver 400000 "https://example.com/article" warmState)
  = Return (Denied ("Failed to resolve hostname example.com: "
                    +:+ "queryA ENOTFOUND example.com; queryAaaa ENOTFOUND example.com")).
Proof. vm_compute. reflexivity. Qed.

Lemma allowed_url_was_checked_witness :
  URL_new "https://example.com/article"
    = Return (mkURL "https:" "example.com" "https://example.com/article")
  /\ wellFormed (mkURL "https:" "example.com" "https://example.com/article")
  /\ ((isValid "example.com" = true /\ allowedAddress "example.com"
       /\ snd (validateUrl exampleResolver 0 "https://example.com/article" initialState)
          = initialState)
      \/ (isValid "example.com" = false
          /\ exists records start,
               records <> [] /\ Forall allowedAddress records
               /\ holds "example.com" records start (dnsCache warmState))).
Proof.
  apply (allowed_url_was_checked exampleResolver 0 "https://example.com/article" initialState
           (mkURL "https:" "example.com" "https://example.com/article")).
  vm_compute. reflexivity.
Defined.

Lemma dnsCache_is_bounded_witness :
  Z.of_nat (fst (getDnsCacheStats warmState)) <= snd (getDnsCacheStats warmState)
  /\ snd (getDnsCacheStats warmState) = LRU.max (dnsCache warmState)
  /\ List.NoDup (map LRU.key (LRU.entries (dnsCache warmState)))
  /\ LRU.ttl (dnsCache warmState) = 5 * 60 * 1000.
Proof.
  apply (dnsCache_is_bounded warmState). apply reach_validateUrl, reach_initial.
Defined.

Lemma clearDnsCache_resets_witness :
  dnsCache (clearDnsCache warmState) = dnsCache initialState
  /\ fst (getDnsCacheStats (clearDnsCache warmState)) = 0%nat
  /\ forall dns now urlCandidate,
       fst (validateUrl dns now urlCandidate (clearDnsCache warmState))
       = fst (validateUrl dns now urlCandidate initialState).
Proof.
  apply (clearDnsCache_resets warmState). apply reach_validateUrl, reach_initial.
Defined.
End FurtherExamples.

Lemma rateLimitStore_is_bounded_witness :
  Z.of_nat (fst (getRateLimitStats exhaustedLimiter)) <= snd (getRateLimitStats exhaustedLimiter)
  /\ List.NoDup (map LRU.key (LRU.entries (rateLimitStore exhaustedLimiter)))
  /\ Forall (fun e => 1 <= Z.of_nat (length (LRU.value e)) <= 5)
       (LRU.entries (rateLimitStore exhaustedLimiter)).
Proof.
  apply (rateLimitStore_is_bounded 5 60000 exhaustedLimiter).
  apply serve_reachable, limiter_initial.
Defined.

Lemma denial_trims_nothing_witness :
  exists timestamps,
    fst (LRU.get 1005 (getClientIp (Some "203.0.113.9"%string)) (rateLimitStore exhaustedLimiter))
      = Some timestamps
    /\ inWindow 60000 1005 (Some timestamps) = timestamps
    /\ Z.of_nat (length timestamps) = 5.
Proof.
  apply (denial_trims_nothing 5 60000 (Some "203.0.113.9"%string) 1005 exhaustedLimiter
           (Num 60)).
  - apply serve_reachable, limiter_initial.
  - lia.
  - vm_compute. reflexivity.
Defined.

Lemma retry_hint_is_honest_witness :
  fst (rateLimiter 5 60000 (Some "203.0.113.9"%string) 61005
         (snd (rateLimiter 5 60000 (Some "203.0.113.9"%string) 1005 exhaustedLimiter)))
  = Next.
Proof.
  apply (retry_hint_is_honest 5 60000 (Some "203.0.113.9"%string) 1005 61005
           exhaustedLimiter 60).
  - apply serve_reachable, limiter_initial.
  - vm_compute. reflexivity.
  - lia.
Defined.

Lemma other_identities_are_untouched_witness :
  LRU.lookup (getClientIp (Some "203.0.113.9"%string))
    (LRU.entries (rateLimitStore
                    (snd (rateLimiter 5 60000 (Some "198.51.100.7"%string) 1005
                            exhaustedLimiter))))
  = LRU.lookup (getClientIp (Some "203.0.113.9"%string))
      (LRU.entries (rateLimitStore exhaustedLimiter))
  /\ fst (rateLimiter 5 60000 (Some "203.0.113.9"%string) 1006
            (snd (rateLimiter 5 60000 (Some "198.51.100.7"%string) 1005 exhaustedLimiter)))
     = fst (rateLimiter 5 60000 (Some "203.0.113.9"%string) 1006 exhaustedLimiter).
Proof.
  apply (other_identities_are_untouched 5 60000 (Some "198.51.100.7"%string)
           (Some "203.0.113.9"%string) 1005 1006 exhaustedLimiter).
  - apply serve_reachable, limiter_initial.
  - vm_compute. discriminate.
  - right. vm_compute. reflexivity.
Defined.

Lemma at_most_maxRequests_per_window_witness :
  Z.of_nat (length (List.filter (inWindowAt 60000 61000)
                      (admittedTimes "203.0.113.9" sampleRequests
                         (fst (handleAll 5 60000 sampleRequests (initialLimiter 60000))))))
  <= 5.
Proof.
  apply (at_most_maxRequests_per_window 5 60000 ltac:(lia) sampleRequests 0
           "203.0.113.9" 61000).
  - lia.
  - simpl. lia.
  - vm_compute. discriminate.
Defined.

Example sampleRequests_verdicts :
  fst (handleAll 5 60000 sampleRequests (initialLimiter 60000))
  = [Next; Next; Next; Next; Next; Next; TooManyRequests (Num 60); Next; Next].
Proof. vm_compute. reflexivity. Qed.
